(** * The asynchronous voice cache of [sound_manager.py]

    A shallow embedding of class [SoundManager] (src/sound_manager.py): the
    voice cache, the generation queue with its de-duplication set, the
    ready queue filled by the background worker, and the volume setters;
    then the sound effects and the music of the same class, and from
    src/main.py the saved volumes of [SaveManager] and the two places that
    apply them, [Game._init_game_state] and [SettingsScreen._apply_volume].

    Conventions of the embedding.
    - A Python [str] is a [string]; a character stands for the code point
      of the same number (U+0000 to U+00FF).
    - A Python [float] is a [spec_float] (IEEE 754 binary64), compared with
      [SFltb] the way [float.__lt__] compares.
    - [dict] is [gmap], [set] is [gset], [list] is [list].
    - The file system and the mixer are part of the state: [disk] says which
      paths exist and whether [pygame.mixer.Sound] can load them, [played]
      records every call of [Sound.play].
    - The two threads are program counters in the state; a block under
      [with self.lock] is one step, and so is each piece of code between
      two such blocks. *)

From Stdlib Require Import Ascii String NArith ZArith SpecFloat.
From stdpp Require Import gmap strings list fin_maps.

#[local] Set Warnings "-clear-no-such-hyp".

Local Open Scope string_scope.
Local Open Scope N_scope.

(** ** Strings: [str.lower], [str.strip], [os.path.join] *)

Module Str.

Definition code (c : ascii) : N := N_of_ascii c.

(** [str.isspace] on one character: TAB, LF, VT, FF, CR, the separators
    U+001C to U+001F, SPACE, NEL (U+0085) and NBSP (U+00A0). *)
Definition isspace (c : ascii) : bool :=
  let n := code c in
  ((9 <=? n) && (n <=? 13)) || ((28 <=? n) && (n <=? 32))
  || (n =? 133) || (n =? 160).

(** [str.lower] on one character: A-Z and the capital letters U+00C0 to
    U+00DE, the multiplication sign U+00D7 apart, move up by 32. *)
Definition lower_char (c : ascii) : ascii :=
  let n := code c in
  if ((65 <=? n) && (n <=? 90))
     || ((192 <=? n) && (n <=? 222) && negb (n =? 215))
  then ascii_of_N (n + 32) else c.

Fixpoint lower (s : string) : string :=
  match s with
  | EmptyString => EmptyString
  | String c r => String (lower_char c) (lower r)
  end.

Fixpoint lstrip (s : string) : string :=
  match s with
  | EmptyString => EmptyString
  | String c r => if isspace c then lstrip r else s
  end.

(** Strip at the right end: a character is kept when it is not a space or
    when something is kept after it. *)
Fixpoint rstrip (s : string) : string :=
  match s with
  | EmptyString => EmptyString
  | String c r =>
      match rstrip r with
      | EmptyString => if isspace c then EmptyString else String c EmptyString
      | r' => String c r'
      end
  end.

Definition strip (s : string) : string := rstrip (lstrip s).

(** The string is empty or made of spaces only. *)
Fixpoint all_space (s : string) : bool :=
  match s with
  | EmptyString => true
  | String c r => isspace c && all_space r
  end.

Definition startswith_sep (s : string) : bool :=
  match s with
  | String "/" _ => true
  | _ => false
  end.

Fixpoint endswith_sep (s : string) : bool :=
  match s with
  | EmptyString => false
  | String c EmptyString => if ascii_dec c "/" then true else false
  | String _ r => endswith_sep r
  end.

(** [os.path.join a b] (posixpath): an absolute [b] replaces [a]; otherwise
    [b] is appended, after a separator unless [a] is empty or ends with
    one. *)
Definition path_join (a b : string) : string :=
  if startswith_sep b then b
  else match a with
       | EmptyString => b
       | _ => if endswith_sep a then a +:+ b else a +:+ "/" +:+ b
       end.

End Str.

Local Close Scope N_scope.
Local Open Scope Z_scope.

(** ** Floats: the clamp of the volume setters *)

Module Float.

Definition zero : spec_float := S754_zero false.                          (* 0.0 *)
Definition one : spec_float := S754_finite false 4503599627370496 (-52).  (* 1.0 *)
Definition f0_3 : spec_float := S754_finite false 5404319552844595 (-54). (* 0.3 *)
Definition f0_6 : spec_float := S754_finite false 5404319552844595 (-53). (* 0.6 *)
Definition f0_8 : spec_float := S754_finite false 7205759403792794 (-53). (* 0.8 *)

(** [min(a, b)]: the second argument replaces the first when it is
    smaller ([b < a]); [max(a, b)]: when it is greater ([b > a]). *)
Definition py_min (a b : spec_float) : spec_float := if SFltb b a then b else a.
Definition py_max (a b : spec_float) : spec_float := if SFltb a b then b else a.

(** [max(0.0, min(1.0, vol))] *)
Definition clamp (vol : spec_float) : spec_float :=
  py_max zero (py_min one vol).

Definition in_unit (v : spec_float) : Prop :=
  SFleb zero v = true /\ SFleb v one = true.

End Float.

Local Close Scope Z_scope.
Local Open Scope list_scope.

(** ** The state *)

(** What [pygame.mixer.Sound(path)] does with an existing file: it returns
    a [Sound], or it raises. *)
Inductive file : Type :=
| Loadable
| Corrupt.

(** A [pygame.mixer.Sound]: the file it was loaded from and the value of
    the last [set_volume] (1.0 for a new one). *)
Record Sound : Type := {
  snd_path : string;
  snd_volume : spec_float
}.

(** The fields of [self] that the voice functions use, the file system
    under [disk] and the log [played] of the calls of [Sound.play]. *)
Record State : Type := {
  voice_cache : gmap string Sound;
  generation_queue : list string;
  ready_queue : list (string * string);
  generating_words : gset string;
  pending_play : option string;
  volume_bgm : spec_float;
  volume_se : spec_float;
  volume_voice : spec_float;
  disk : gmap string file;
  played : list Sound
}.

Definition set_voice_cache (c : gmap string Sound) (s : State) : State :=
  {| voice_cache := c; generation_queue := generation_queue s;
     ready_queue := ready_queue s; generating_words := generating_words s;
     pending_play := pending_play s; volume_bgm := volume_bgm s;
     volume_se := volume_se s; volume_voice := volume_voice s;
     disk := disk s; played := played s |}.

Definition set_generation_queue (q : list string) (s : State) : State :=
  {| voice_cache := voice_cache s; generation_queue := q;
     ready_queue := ready_queue s; generating_words := generating_words s;
     pending_play := pending_play s; volume_bgm := volume_bgm s;
     volume_se := volume_se s; volume_voice := volume_voice s;
     disk := disk s; played := played s |}.

Definition set_ready_queue (q : list (string * string)) (s : State) : State :=
  {| voice_cache := voice_cache s; generation_queue := generation_queue s;
     ready_queue := q; generating_words := generating_words s;
     pending_play := pending_play s; volume_bgm := volume_bgm s;
     volume_se := volume_se s; volume_voice := volume_voice s;
     disk := disk s; played := played s |}.

Definition set_generating_words (g : gset string) (s : State) : State :=
  {| voice_cache := voice_cache s; generation_queue := generation_queue s;
     ready_queue := ready_queue s; generating_words := g;
     pending_play := pending_play s; volume_bgm := volume_bgm s;
     volume_se := volume_se s; volume_voice := volume_voice s;
     disk := disk s; played := played s |}.

Definition set_pending_play (p : option string) (s : State) : State :=
  {| voice_cache := voice_cache s; generation_queue := generation_queue s;
     ready_queue := ready_queue s; generating_words := generating_words s;
     pending_play := p; volume_bgm := volume_bgm s;
     volume_se := volume_se s; volume_voice := volume_voice s;
     disk := disk s; played := played s |}.

Definition set_volume_voice_field (v : spec_float) (s : State) : State :=
  {| voice_cache := voice_cache s; generation_queue := generation_queue s;
     ready_queue := ready_queue s; generating_words := generating_words s;
     pending_play := pending_play s; volume_bgm := volume_bgm s;
     volume_se := volume_se s; volume_voice := v;
     disk := disk s; played := played s |}.

Definition set_disk (d : gmap string file) (s : State) : State :=
  {| voice_cache := voice_cache s; generation_queue := generation_queue s;
     ready_queue := ready_queue s; generating_words := generating_words s;
     pending_play := pending_play s; volume_bgm := volume_bgm s;
     volume_se := volume_se s; volume_voice := volume_voice s;
     disk := d; played := played s |}.

Definition set_played (l : list Sound) (s : State) : State :=
  {| voice_cache := voice_cache s; generation_queue := generation_queue s;
     ready_queue := ready_queue s; generating_words := generating_words s;
     pending_play := pending_play s; volume_bgm := volume_bgm s;
     volume_se := volume_se s; volume_voice := volume_voice s;
     disk := disk s; played := l |}.

(** ** The mixer *)

(** [pygame.mixer.Sound(path)]: [None] when it raises. *)
Definition Sound_load (path : string) (s : State) : option Sound :=
  match disk s !! path with
  | Some Loadable => Some {| snd_path := path; snd_volume := Float.one |}
  | Some Corrupt => None
  | None => None
  end.

(** [sound.set_volume(v)] *)
Definition Sound_set_volume (v : spec_float) (sound : Sound) : Sound :=
  {| snd_path := snd_path sound; snd_volume := v |}.

(** [sound.play()] *)
Definition Sound_play (sound : Sound) (s : State) : State :=
  set_played (played s ++ [sound]) s.

(** ** [SoundManager] *)

(** [self.voice_dir] *)
Definition voice_dir : string := Str.path_join "assets" "voice".

(** [os.path.join(self.voice_dir, f"{word}.mp3")], the two lines that open
    the disk check of [play_voice] and [_generate_and_cache] alike. *)
Definition voice_path (word : string) : string :=
  Str.path_join voice_dir (word +:+ ".mp3").

(** [__init__], on a file system [d]. *)
Definition init_state (d : gmap string file) : State :=
  {| voice_cache := ∅; generation_queue := []; ready_queue := [];
     generating_words := ∅; pending_play := None;
     volume_bgm := Float.f0_3; volume_se := Float.f0_6;
     volume_voice := Float.f0_8; disk := d; played := [] |}.

(** [word.lower().strip()] *)
Definition normalize (word : string) : string := Str.strip (Str.lower word).

(** [play_voice] up to its locked block: either it has returned, or it
    stands before [with self.lock] with the normalized word. *)
Inductive lookup_result : Type :=
| Returned (s : State)
| Missed (word : string) (s : State).

(** Part 3 of [play_voice], the assignment before the lock. *)
Definition request_generation (word : string) (s : State) : lookup_result :=
  Missed word (set_pending_play (Some word) s).

Definition play_voice_lookup (word : string) (s : State) : lookup_result :=
  let word := normalize word in
  if decide (word = "") then Returned s
  else
    match voice_cache s !! word with
    | Some sound =>
        let sound := Sound_set_volume (volume_voice s) sound in
        Returned (Sound_play sound
                    (set_voice_cache (<[word := sound]> (voice_cache s)) s))
    | None =>
        let path := voice_path word in
        match disk s !! path with
        | None => request_generation word s
        | Some _ =>
            match Sound_load path s with
            | Some sound =>
                let sound := Sound_set_volume (volume_voice s) sound in
                Returned (Sound_play sound
                            (set_voice_cache (<[word := sound]> (voice_cache s)) s))
            | None => request_generation word s
            end
        end
    end.

(** The locked block of [play_voice]. *)
Definition play_voice_enqueue (word : string) (s : State) : State :=
  if decide (word ∈ generating_words s) then s
  else set_generating_words ({[word]} ∪ generating_words s)
         (set_generation_queue (generation_queue s ++ [word]) s).

Definition play_voice (word : string) (s : State) : State :=
  match play_voice_lookup word s with
  | Returned s' => s'
  | Missed word' s' => play_voice_enqueue word' s'
  end.

(** The body of the loop of [update], after the [pop(0)]. *)
Definition update_body (word path : string) (s : State) : State :=
  match Sound_load path s with
  | Some sound =>
      let s := set_voice_cache (<[word := sound]> (voice_cache s)) s in
      if decide (pending_play s = Some word)
      then set_pending_play None (Sound_play sound s)
      else s
  | None => s
  end.

(** One turn of [while self.ready_queue]: [None] when the test fails. *)
Definition update_turn (s : State) : option State :=
  match ready_queue s with
  | [] => None
  | (word, path) :: rest => Some (update_body word path (set_ready_queue rest s))
  end.

Fixpoint update_loop (fuel : nat) (s : State) : State :=
  match fuel with
  | O => s
  | S fuel' =>
      match update_turn s with
      | None => s
      | Some s' => update_loop fuel' s'
      end
  end.

(** [update]: each turn pops one record and none is added under the lock,
    so the length of the ready queue is fuel enough. *)
Definition update (s : State) : State :=
  update_loop (length (ready_queue s)) s.

(** [set_volume_voice] *)
Definition set_volume_voice (vol : spec_float) (s : State) : State :=
  let s := set_volume_voice_field (Float.clamp vol) s in
  set_voice_cache (Sound_set_volume (volume_voice s) <$> voice_cache s) s.

(** What [gTTS(...)] and [tts.save(path)] do, as the environment decides:
    both return and the file at [path] is [f], or one of them raises and
    [tts.save] has left nothing or a file behind. *)
Inductive synthesis : Type :=
| Saved (f : file)
| Raised (left : option file).

(** The [try] block of [_generate_and_cache] up to the lock. *)
Definition synthesize (word : string) (o : synthesis) (s : State) : State :=
  let path := voice_path word in
  match o with
  | Saved f => set_disk (<[path := f]> (disk s)) s
  | Raised (Some f) => set_disk (<[path := f]> (disk s)) s
  | Raised None => s
  end.

(** The locked block of the [try]. *)
Definition publish (word : string) (s : State) : State :=
  let path := voice_path word in
  set_generating_words (generating_words s ∖ {[word]})
    (set_ready_queue (ready_queue s ++ [(word, path)]) s).

(** The locked block of the [except]. *)
Definition discard_failed (word : string) (s : State) : State :=
  set_generating_words (generating_words s ∖ {[word]}) s.

Definition _generate_and_cache (word : string) (o : synthesis) (s : State) : State :=
  let s := synthesize word o s in
  match o with
  | Saved _ => publish word s
  | Raised _ => discard_failed word s
  end.

(** The locked block of [_generation_worker]: [word_to_process] and the
    state. *)
Definition worker_pop (s : State) : option string * State :=
  match generation_queue s with
  | [] => (None, s)
  | word :: rest => (Some word, set_generation_queue rest s)
  end.

(** One round of [while True] in [_generation_worker], run without the
    other thread in between. An empty [word_to_process] is false in
    Python, like [None]: the round sleeps. *)
Definition worker_round (o : synthesis) (s : State) : State :=
  match worker_pop s with
  | (Some word, s') =>
      if decide (word = "") then s' else _generate_and_cache word o s'
  | (None, s') => s'
  end.

(** Rounds of the worker, one after the other, with the outcome of each
    synthesis. *)
Fixpoint worker_rounds (os : list synthesis) (s : State) : State :=
  match os with
  | [] => s
  | o :: os' => worker_rounds os' (worker_round o s)
  end.

(** ** The two threads *)

(** Where the game loop stands: outside the voice functions, in
    [play_voice] before [with self.lock], or in [update] under the lock. *)
Inductive consumer_pc : Type :=
| CIdle
| CEnqueue (word : string)
| CUpdate.

(** Where the worker stands: before the locked pop, in
    [_generate_and_cache] before the synthesis, or before the locked block
    of the [try] or of the [except]. *)
Inductive worker_pc : Type :=
| WPop
| WGenerate (word : string)
| WPublish (word : string)
| WFailed (word : string).

Record System : Type := {
  st : State;
  consumer : consumer_pc;
  worker : worker_pc
}.

Inductive event : Type :=
| Call_play_voice (word : string)
| Lock_enqueue
| Call_set_volume_voice (vol : spec_float)
| Call_update
| Update_turn
| Worker_pop
| Worker_synthesize (o : synthesis)
| Worker_publish
| Worker_discard.

(** [self.lock] is held by the game loop while it is in [update]; every
    other locked block is one step. *)
Definition lock_free (y : System) : bool :=
  match consumer y with
  | CUpdate => false
  | _ => true
  end.

Definition step (e : event) (y : System) : option System :=
  let s := st y in
  match e, consumer y, worker y with
  | Call_play_voice word, CIdle, w =>
      match play_voice_lookup word s with
      | Returned s' => Some {| st := s'; consumer := CIdle; worker := w |}
      | Missed word' s' =>
          Some {| st := s'; consumer := CEnqueue word'; worker := w |}
      end
  | Lock_enqueue, CEnqueue word, w =>
      Some {| st := play_voice_enqueue word s; consumer := CIdle; worker := w |}
  | Call_set_volume_voice vol, CIdle, w =>
      Some {| st := set_volume_voice vol s; consumer := CIdle; worker := w |}
  | Call_update, CIdle, w =>
      Some {| st := s; consumer := CUpdate; worker := w |}
  | Update_turn, CUpdate, w =>
      match update_turn s with
      | Some s' => Some {| st := s'; consumer := CUpdate; worker := w |}
      | None => Some {| st := s; consumer := CIdle; worker := w |}
      end
  | Worker_pop, c, WPop =>
      if lock_free y then
        match worker_pop s with
        | (Some word, s') =>
            Some {| st := s'; consumer := c;
                    worker := if decide (word = "") then WPop
                              else WGenerate word |}
        | (None, s') => Some {| st := s'; consumer := c; worker := WPop |}
        end
      else None
  | Worker_synthesize o, c, WGenerate word =>
      Some {| st := synthesize word o s; consumer := c;
              worker := match o with
                        | Saved _ => WPublish word
                        | Raised _ => WFailed word
                        end |}
  | Worker_publish, c, WPublish word =>
      if lock_free y
      then Some {| st := publish word s; consumer := c; worker := WPop |}
      else None
  | Worker_discard, c, WFailed word =>
      if lock_free y
      then Some {| st := discard_failed word s; consumer := c; worker := WPop |}
      else None
  | _, _, _ => None
  end.

(** The steps again, one rule for each way through [step]. *)
Inductive step_rel : event -> System -> System -> Prop :=
| step_play_returned word s s' w :
    play_voice_lookup word s = Returned s' ->
    step_rel (Call_play_voice word)
      {| st := s; consumer := CIdle; worker := w |}
      {| st := s'; consumer := CIdle; worker := w |}
| step_play_missed word word' s s' w :
    play_voice_lookup word s = Missed word' s' ->
    step_rel (Call_play_voice word)
      {| st := s; consumer := CIdle; worker := w |}
      {| st := s'; consumer := CEnqueue word'; worker := w |}
| step_enqueue word s w :
    step_rel Lock_enqueue
      {| st := s; consumer := CEnqueue word; worker := w |}
      {| st := play_voice_enqueue word s; consumer := CIdle; worker := w |}
| step_set_volume vol s w :
    step_rel (Call_set_volume_voice vol)
      {| st := s; consumer := CIdle; worker := w |}
      {| st := set_volume_voice vol s; consumer := CIdle; worker := w |}
| step_update_enter s w :
    step_rel Call_update
      {| st := s; consumer := CIdle; worker := w |}
      {| st := s; consumer := CUpdate; worker := w |}
| step_update_turn s s' w :
    update_turn s = Some s' ->
    step_rel Update_turn
      {| st := s; consumer := CUpdate; worker := w |}
      {| st := s'; consumer := CUpdate; worker := w |}
| step_update_leave s w :
    update_turn s = None ->
    step_rel Update_turn
      {| st := s; consumer := CUpdate; worker := w |}
      {| st := s; consumer := CIdle; worker := w |}
| step_pop_word word s s' c :
    c <> CUpdate -> worker_pop s = (Some word, s') -> word <> "" ->
    step_rel Worker_pop
      {| st := s; consumer := c; worker := WPop |}
      {| st := s'; consumer := c; worker := WGenerate word |}
| step_pop_sleep o s s' c :
    c <> CUpdate -> worker_pop s = (o, s') -> o = None \/ o = Some "" ->
    step_rel Worker_pop
      {| st := s; consumer := c; worker := WPop |}
      {| st := s'; consumer := c; worker := WPop |}
| step_synthesize_saved word f s c :
    step_rel (Worker_synthesize (Saved f))
      {| st := s; consumer := c; worker := WGenerate word |}
      {| st := synthesize word (Saved f) s; consumer := c;
         worker := WPublish word |}
| step_synthesize_raised word left s c :
    step_rel (Worker_synthesize (Raised left))
      {| st := s; consumer := c; worker := WGenerate word |}
      {| st := synthesize word (Raised left) s; consumer := c;
         worker := WFailed word |}
| step_publish word s c :
    c <> CUpdate ->
    step_rel Worker_publish
      {| st := s; consumer := c; worker := WPublish word |}
      {| st := publish word s; consumer := c; worker := WPop |}
| step_discard word s c :
    c <> CUpdate ->
    step_rel Worker_discard
      {| st := s; consumer := c; worker := WFailed word |}
      {| st := discard_failed word s; consumer := c; worker := WPop |}.

(** [SoundManager()]: the fields are set and the worker thread starts. *)
Definition init (d : gmap string file) : System :=
  {| st := init_state d; consumer := CIdle; worker := WPop |}.

Inductive reachable : System -> Prop :=
| reachable_init d : reachable (init d)
| reachable_step e y y' :
    reachable y -> step e y = Some y' -> reachable y'.

(** A run of events from a system; [None] when one is not enabled. *)
Fixpoint run (es : list event) (y : System) : option System :=
  match es with
  | [] => Some y
  | e :: es' =>
      match step e y with
      | Some y' => run es' y'
      | None => None
      end
  end.

(** The word the worker has popped and not yet finished. *)
Definition in_flight (w : worker_pc) : list string :=
  match w with
  | WPop => []
  | WGenerate word => [word]
  | WPublish word => [word]
  | WFailed word => [word]
  end.

(** The invariant of the queue, the set and the ready queue. *)
Record consistent (y : System) : Prop := {
  cons_nodup : NoDup (generation_queue (st y) ++ in_flight (worker y));
  cons_set : generating_words (st y)
             = list_to_set (generation_queue (st y) ++ in_flight (worker y));
  cons_nonempty : "" ∉ generation_queue (st y);
  cons_enqueue : ∀ word, consumer y = CEnqueue word -> word <> "";
  cons_paths : ∀ word path,
      (word, path) ∈ ready_queue (st y) -> path = voice_path word
}.

(** ** Sample states *)

(** Three words in the voice cache and nothing under way. *)
Definition sample_cached : State :=
  set_voice_cache
    (<["cat" := {| snd_path := voice_path "cat"; snd_volume := Float.one |}]>
       (<["dog" := {| snd_path := voice_path "dog"; snd_volume := Float.f0_8 |}]>
          (<["owl" := {| snd_path := voice_path "owl"; snd_volume := Float.f0_6 |}]>
             ∅)))
    (init_state ∅).

(** "Cat" and " dog " requested, both missed, and the worker at "cat". *)
Definition sample_events : list event :=
  [Call_play_voice "Cat"; Lock_enqueue; Call_play_voice " dog "; Lock_enqueue;
   Worker_pop].

Definition sample_system : System :=
  default (init ∅) (run sample_events (init ∅)).

(** "Cat" requested and missed, its voice saved and published. *)
Definition published_events : list event :=
  [Call_play_voice "Cat"; Lock_enqueue; Worker_pop;
   Worker_synthesize (Saved Loadable); Worker_publish].

Definition sample_published : System :=
  default (init ∅) (run published_events (init ∅)).



(** ** Invariants of the keys and of the volumes *)

(** A key: a word that is not empty and that [normalize] leaves as it
    is. *)
Definition is_key (k : string) : Prop := k <> "" /\ normalize k = k.

(** Every key held anywhere in the system is a key in this sense, every
    cached sound was loaded from the file of its key, and the key that
    [play_voice] is about to queue is not cached. *)
Record well_keyed (y : System) : Prop := {
  wk_cache : ∀ k sound,
      voice_cache (st y) !! k = Some sound ->
      is_key k /\ snd_path sound = voice_path k;
  wk_queue : ∀ k, k ∈ generation_queue (st y) -> is_key k;
  wk_ready : ∀ k path,
      (k, path) ∈ ready_queue (st y) -> is_key k /\ path = voice_path k;
  wk_flight : ∀ k, k ∈ in_flight (worker y) -> is_key k;
  wk_pending : ∀ k, pending_play (st y) = Some k -> is_key k;
  wk_enqueue : ∀ k,
      consumer y = CEnqueue k -> is_key k /\ voice_cache (st y) !! k = None
}.

Record volumes_in_unit (s : State) : Prop := {
  vu_voice : Float.in_unit (volume_voice s);
  vu_cache : ∀ k sound,
      voice_cache s !! k = Some sound -> Float.in_unit (snd_volume sound);
  vu_played : ∀ sound, sound ∈ played s -> Float.in_unit (snd_volume sound)
}.

(** ** Sound effects and music *)

Definition set_volume_se_field (v : spec_float) (s : State) : State :=
  {| voice_cache := voice_cache s; generation_queue := generation_queue s;
     ready_queue := ready_queue s; generating_words := generating_words s;
     pending_play := pending_play s; volume_bgm := volume_bgm s;
     volume_se := v; volume_voice := volume_voice s;
     disk := disk s; played := played s |}.

Definition set_volume_bgm_field (v : spec_float) (s : State) : State :=
  {| voice_cache := voice_cache s; generation_queue := generation_queue s;
     ready_queue := ready_queue s; generating_words := generating_words s;
     pending_play := pending_play s; volume_bgm := v;
     volume_se := volume_se s; volume_voice := volume_voice s;
     disk := disk s; played := played s |}.

(** [pygame.mixer.music]: the file that is loaded, whether it is playing,
    and the value of the last [set_volume] (1.0 at the start). *)
Record Music : Type := {
  music_track : option string;
  music_busy : bool;
  music_volume : spec_float
}.

(** The whole of [self]: the state of the voice functions, the cache of
    the sound effects, the attribute [current_bgm] ([None] while it is not
    set) and the music of the mixer. *)
Record Manager : Type := {
  base : State;
  se_cache : gmap string Sound;
  current_bgm : option string;
  music : Music
}.

Definition with_base (f : State -> State) (m : Manager) : Manager :=
  {| base := f (base m); se_cache := se_cache m;
     current_bgm := current_bgm m; music := music m |}.

(** [self.sound_dir] *)
Definition sound_dir : string := Str.path_join "assets" "sounds".

(** [SoundManager()] *)
Definition init_manager (d : gmap string file) : Manager :=
  {| base := init_state d; se_cache := ∅; current_bgm := None;
     music := {| music_track := None; music_busy := false;
                 music_volume := Float.one |} |}.

(** [play_se] *)
Definition play_se (filename : string) (m : Manager) : Manager :=
  match se_cache m !! filename with
  | Some sound => with_base (Sound_play sound) m
  | None =>
      let path := Str.path_join sound_dir filename in
      match disk (base m) !! path with
      | None => m
      | Some _ =>
          match Sound_load path (base m) with
          | Some sound =>
              let sound := Sound_set_volume (volume_se (base m)) sound in
              {| base := Sound_play sound (base m);
                 se_cache := <[filename := sound]> (se_cache m);
                 current_bgm := current_bgm m; music := music m |}
          | None => m
          end
      end
  end.

(** [set_volume_se] *)
Definition set_volume_se (vol : spec_float) (m : Manager) : Manager :=
  let s := set_volume_se_field (Float.clamp vol) (base m) in
  {| base := s; se_cache := Sound_set_volume (volume_se s) <$> se_cache m;
     current_bgm := current_bgm m; music := music m |}.

(** [set_volume_bgm] *)
Definition set_volume_bgm (vol : spec_float) (m : Manager) : Manager :=
  let s := set_volume_bgm_field (Float.clamp vol) (base m) in
  {| base := s; se_cache := se_cache m; current_bgm := current_bgm m;
     music := {| music_track := music_track (music m);
                 music_busy := music_busy (music m);
                 music_volume := volume_bgm s |} |}.

(** [stop_bgm] *)
Definition stop_bgm (m : Manager) : Manager :=
  {| base := base m; se_cache := se_cache m; current_bgm := current_bgm m;
     music := {| music_track := music_track (music m); music_busy := false;
                 music_volume := music_volume (music m) |} |}.

Section Music_load.

(** What [pygame.mixer.music.load] leaves of the loaded file and of its
    playing when it raises (this differs between versions of pygame); the
    volume of the music is not touched by a load. *)
Variable music_load_failed : option string -> bool -> option string * bool.

(** [play_bgm] *)
Definition play_bgm (filename : string) (m : Manager) : Manager :=
  let path := Str.path_join sound_dir filename in
  match disk (base m) !! path with
  | None => m
  | Some f =>
      if bool_decide (current_bgm m = Some filename) && music_busy (music m)
      then m
      else
        match f with
        | Loadable =>
            {| base := base m; se_cache := se_cache m;
               current_bgm := Some filename;
               music := {| music_track := Some path; music_busy := true;
                           music_volume := volume_bgm (base m) |} |}
        | Corrupt =>
            let '(track, busy) :=
              music_load_failed (music_track (music m)) (music_busy (music m)) in
            {| base := base m; se_cache := se_cache m;
               current_bgm := current_bgm m;
               music := {| music_track := track; music_busy := busy;
                           music_volume := music_volume (music m) |} |}
        end
  end.

(** The calls of the game loop on the sound manager, and a round of the
    worker. *)
Inductive call : Type :=
| Play_voice (word : string)
| Update
| Set_volume_voice (vol : spec_float)
| Set_volume_se (vol : spec_float)
| Set_volume_bgm (vol : spec_float)
| Play_se (filename : string)
| Play_bgm (filename : string)
| Stop_bgm
| Round (o : synthesis).

Definition do_call (c : call) (m : Manager) : Manager :=
  match c with
  | Play_voice word => with_base (play_voice word) m
  | Update => with_base update m
  | Set_volume_voice vol => with_base (set_volume_voice vol) m
  | Set_volume_se vol => set_volume_se vol m
  | Set_volume_bgm vol => set_volume_bgm vol m
  | Play_se filename => play_se filename m
  | Play_bgm filename => play_bgm filename m
  | Stop_bgm => stop_bgm m
  | Round o => with_base (worker_round o) m
  end.

Definition do_calls (cs : list call) (m : Manager) : Manager :=
  fold_left (fun acc c => do_call c acc) cs m.

End Music_load.

(** The sound effects are in step with the volume of their channel, and
    each was loaded from its own file. *)
Definition se_in_step (m : Manager) : Prop :=
  ∀ filename sound,
    se_cache m !! filename = Some sound ->
    snd_volume sound = volume_se (base m)
    /\ snd_path sound = Str.path_join sound_dir filename.

(** The music is at the volume of its channel and the three volumes lie
    between 0.0 and 1.0. *)
Definition volumes_settled (m : Manager) : Prop :=
  music_volume (music m) = volume_bgm (base m)
  /\ Float.in_unit (volume_bgm (base m))
  /\ Float.in_unit (volume_se (base m))
  /\ Float.in_unit (volume_voice (base m)).

(** ** The saved volumes ([SaveManager] of main.py) *)

Module Save.

Definition half : spec_float := S754_finite false 4503599627370496 (-53). (* 0.5 *)

(** The dictionary under ["volume"] in [_default_data]. *)
Definition default_volume : gmap string spec_float :=
  <["bgm" := Float.f0_3]> (<["se" := Float.f0_6]> (<["voice" := Float.f0_8]> ∅)).

(** Of [self.data] the entry ["volume"], [None] when the key is missing;
    of the save file the same, under [Some] when the file exists and is
    read as JSON. *)
Record SaveManager : Type := {
  data_volume : option (gmap string spec_float);
  file_volume : option (option (gmap string spec_float))
}.

(** [load_data], then [__init__]. *)
Definition load_data (file : option (option (gmap string spec_float)))
  : option (gmap string spec_float) :=
  match file with
  | Some v => v
  | None => Some default_volume
  end.

Definition init (file : option (option (gmap string spec_float))) : SaveManager :=
  {| data_volume := load_data file; file_volume := file |}.

(** [save_data] *)
Definition save_data (sm : SaveManager) : SaveManager :=
  {| data_volume := data_volume sm; file_volume := Some (data_volume sm) |}.

(** The first two lines of [get_volume] and of [set_volume]. *)
Definition ensure_volume (sm : SaveManager) : gmap string spec_float :=
  match data_volume sm with
  | Some v => v
  | None => default_volume
  end.

(** [get_volume]: the value and [self] after the call. *)
Definition get_volume (channel : string) (sm : SaveManager)
  : spec_float * SaveManager :=
  let v := ensure_volume sm in
  (default half (v !! channel),
   {| data_volume := Some v; file_volume := file_volume sm |}).

(** [set_volume] *)
Definition set_volume (channel : string) (value : spec_float)
    (sm : SaveManager) : SaveManager :=
  let v := ensure_volume sm in
  save_data {| data_volume := Some (<[channel := Float.clamp value]> v);
               file_volume := file_volume sm |}.

End Save.

(** ** The game and the settings screen (main.py) *)

(** [Game.save_manager] and [Game.sound_manager]. *)
Record Game : Type := {
  save_manager : Save.SaveManager;
  sound_manager : Manager
}.

(** The three pairs of lines that [Game._init_game_state] and
    [SettingsScreen.__init__] share: the saved volumes are read and set. *)
Definition apply_saved_volumes (g : Game) : Game :=
  let '(bgm_vol, sm) := Save.get_volume "bgm" (save_manager g) in
  let m := set_volume_bgm bgm_vol (sound_manager g) in
  let '(se_vol, sm) := Save.get_volume "se" sm in
  let m := set_volume_se se_vol m in
  let '(voice_vol, sm) := Save.get_volume "voice" sm in
  let m := with_base (set_volume_voice voice_vol) m in
  {| save_manager := sm; sound_manager := m |}.

(** [Game._init_game_state], up to the deck. *)
Definition _init_game_state (saved : option (option (gmap string spec_float)))
    (d : gmap string file) : Game :=
  apply_saved_volumes
    {| save_manager := Save.init saved; sound_manager := init_manager d |}.

(** [SettingsScreen._apply_volume], on the channel and the value of the
    slider. *)
Definition _apply_volume (ch : string) (val : spec_float) (g : Game) : Game :=
  let m := sound_manager g in
  let m :=
    if decide (ch = "bgm") then set_volume_bgm val m
    else if decide (ch = "se") then set_volume_se val m
    else if decide (ch = "voice") then with_base (set_volume_voice val) m
    else m in
  {| save_manager := Save.set_volume ch val (save_manager g);
     sound_manager := m |}.

(** ** More sample states *)

(** "Cat" requested, saved, published and drained by [update]. *)
Definition drained_events : list event :=
  published_events ++ [Call_update; Update_turn; Update_turn].

Definition sample_drained : System :=
  default (init ∅) (run drained_events (init ∅)).

(** A disk with two sound effects and a track, one effect broken. *)
Definition sample_disk : gmap string file :=
  <["assets/sounds/correct.mp3" := Loadable]>
    (<["assets/sounds/wrong.mp3" := Corrupt]>
       (<["assets/sounds/title.mp3" := Loadable]> ∅)).

(** A failed load that stops the music and unloads it. *)
Definition unload : option string -> bool -> option string * bool :=
  fun _ _ => (None, false).

(** * Properties *)

(** ** The functions on sample inputs *)

Example lower_Cat : Str.lower "Cat" = "cat".
Proof. reflexivity. Qed.

Example strip_cat : Str.strip " cat 	" = "cat".
Proof. reflexivity. Qed.

Example strip_inner : Str.strip "  ice  cream " = "ice  cream".
Proof. reflexivity. Qed.

Example voice_dir_value : voice_dir = "assets/voice".
Proof. reflexivity. Qed.

Example voice_path_cat : voice_path "cat" = "assets/voice/cat.mp3".
Proof. reflexivity. Qed.

Example clamp_above : Float.clamp (S754_finite false 3 0) = Float.one.
Proof. reflexivity. Qed.

Example clamp_nan : Float.clamp S754_nan = Float.one.
Proof. reflexivity. Qed.

Example clamp_below : Float.clamp (S754_finite true 3 0) = Float.zero.
Proof. reflexivity. Qed.

Example clamp_between : Float.clamp Float.f0_3 = Float.f0_3.
Proof. reflexivity. Qed.

Example sample_system_state :
  generation_queue (st sample_system) = ["dog"]
  /\ worker sample_system = WGenerate "cat"
  /\ pending_play (st sample_system) = Some "dog"
  /\ elements (generating_words (st sample_system)) = ["cat"; "dog"].
Proof. vm_compute. repeat split. Qed.

Example sample_published_state :
  ready_queue (st sample_published) = [("cat", "assets/voice/cat.mp3")]
  /\ worker sample_published = WPop
  /\ elements (generating_words (st sample_published)) = [].
Proof. vm_compute. repeat split. Qed.

(** ** Strings *)

Lemma lower_char_isspace (c : ascii) :
  Str.isspace (Str.lower_char c) = Str.isspace c.
Proof.
  destruct c as [[] [] [] [] [] [] [] []]; vm_compute; reflexivity.
Qed.

Lemma all_space_lower (w : string) :
  Str.all_space (Str.lower w) = Str.all_space w.
Proof.
  induction w as [|c r IH]; [reflexivity|].
  cbn [Str.lower Str.all_space]. rewrite lower_char_isspace, IH. reflexivity.
Qed.

Lemma all_space_lstrip (w : string) :
  Str.all_space (Str.lstrip w) = Str.all_space w.
Proof.
  induction w as [|c r IH]; [reflexivity|].
  cbn [Str.lstrip]. destruct (Str.isspace c) eqn:Hc.
  - rewrite IH. cbn [Str.all_space]. rewrite Hc. reflexivity.
  - reflexivity.
Qed.

Lemma rstrip_empty (w : string) :
  Str.rstrip w = "" <-> Str.all_space w = true.
Proof.
  induction w as [|c r IH]; cbn [Str.rstrip Str.all_space]; [tauto|].
  destruct (Str.rstrip r) eqn:Hr.
  - destruct (Str.isspace c); cbn [andb].
    + split; [intros _; apply IH; reflexivity | reflexivity].
    + split; discriminate.
  - split; [discriminate|]. intros H.
    apply andb_prop in H as [_ H]. apply IH in H. discriminate.
Qed.

Lemma normalize_empty (w : string) :
  normalize w = "" <-> Str.all_space w = true.
Proof.
  unfold normalize, Str.strip.
  rewrite rstrip_empty, all_space_lstrip, all_space_lower. reflexivity.
Qed.

(** ** Floats *)

Lemma SFltb_SFleb (x y : spec_float) : SFltb x y = true -> SFleb x y = true.
Proof.
  unfold SFltb, SFleb. destruct (SFcompare x y) as [[]|]; congruence.
Qed.

Lemma clamp_in_unit (vol : spec_float) : Float.in_unit (Float.clamp vol).
Proof.
  unfold Float.clamp, Float.py_max, Float.py_min.
  destruct (SFltb vol Float.one) eqn:H1.
  - destruct (SFltb Float.zero vol) eqn:H0.
    + split; apply SFltb_SFleb; assumption.
    + split; reflexivity.
  - split; reflexivity.
Qed.

(** A volume strictly between 0.0 and 1.0 is kept as it is. *)
Lemma clamp_inside (vol : spec_float) :
  SFltb Float.zero vol = true -> SFltb vol Float.one = true ->
  Float.clamp vol = vol.
Proof.
  intros H0 H1. unfold Float.clamp, Float.py_max, Float.py_min.
  rewrite H1, H0. reflexivity.
Qed.

(** ** [play_voice] *)

Lemma play_voice_normalize (a b : string) (s : State) :
  normalize a = normalize b -> play_voice a s = play_voice b s.
Proof.
  intros H. unfold play_voice, play_voice_lookup. rewrite H. reflexivity.
Qed.

(** The guard [if not word: return]. *)
Lemma play_voice_blank (w : string) (s : State) :
  normalize w = "" -> play_voice w s = s.
Proof.
  intros Hw. unfold play_voice, play_voice_lookup. rewrite Hw.
  destruct (decide ("" = "")); [reflexivity | contradiction].
Qed.

(** The three ways through [play_voice] for a word that is not empty. *)
Lemma play_voice_memory (w : string) (s : State) (sound : Sound) :
  normalize w <> "" -> voice_cache s !! normalize w = Some sound ->
  play_voice w s =
    let sound' := Sound_set_volume (volume_voice s) sound in
    Sound_play sound'
      (set_voice_cache (<[normalize w := sound']> (voice_cache s)) s).
Proof.
  intros Hne Hc. unfold play_voice, play_voice_lookup.
  destruct (decide (normalize w = "")); [contradiction|].
  rewrite Hc. reflexivity.
Qed.

Lemma play_voice_disk (w : string) (s : State) :
  normalize w <> "" -> voice_cache s !! normalize w = None ->
  disk s !! voice_path (normalize w) = Some Loadable ->
  play_voice w s =
    let sound' := {| snd_path := voice_path (normalize w);
                     snd_volume := volume_voice s |} in
    Sound_play sound'
      (set_voice_cache (<[normalize w := sound']> (voice_cache s)) s).
Proof.
  intros Hne Hc Hd. unfold play_voice, play_voice_lookup.
  destruct (decide (normalize w = "")); [contradiction|].
  rewrite Hc. cbn zeta. unfold Sound_load. rewrite Hd. reflexivity.
Qed.

Lemma play_voice_miss (w : string) (s : State) :
  normalize w <> "" -> voice_cache s !! normalize w = None ->
  Sound_load (voice_path (normalize w)) s = None ->
  play_voice w s =
    play_voice_enqueue (normalize w) (set_pending_play (Some (normalize w)) s).
Proof.
  intros Hne Hc Hd. unfold play_voice, play_voice_lookup.
  destruct (decide (normalize w = "")); [contradiction|].
  rewrite Hc. cbn zeta. rewrite Hd.
  destruct (disk s !! voice_path (normalize w)); reflexivity.
Qed.

(** [play_voice] either leaves the queue alone or appends its key, which
    was not marked as generating. *)
Lemma play_voice_queue (w : string) (s : State) :
  (generation_queue (play_voice w s) = generation_queue s
   /\ generating_words (play_voice w s) = generating_words s)
  \/ (generation_queue (play_voice w s) = generation_queue s ++ [normalize w]
      /\ generating_words (play_voice w s) = {[normalize w]} ∪ generating_words s
      /\ (normalize w ∉ generating_words s)
      /\ normalize w <> "").
Proof.
  unfold play_voice, play_voice_lookup.
  destruct (decide (normalize w = "")) as [|Hne]; [left; split; reflexivity|].
  destruct (voice_cache s !! normalize w); [left; split; reflexivity|].
  cbn zeta.
  assert (let r := request_generation (normalize w) s in
          let s' := match r with
                    | Returned s' => s'
                    | Missed word' s' => play_voice_enqueue word' s'
                    end in
          (generation_queue s' = generation_queue s
           /\ generating_words s' = generating_words s)
          \/ (generation_queue s' = generation_queue s ++ [normalize w]
              /\ generating_words s' = {[normalize w]} ∪ generating_words s
              /\ (normalize w ∉ generating_words s) /\ normalize w <> "")) as Hreq.
  { cbn. unfold play_voice_enqueue. cbn.
    destruct (decide (normalize w ∈ generating_words s)); cbn; [left|right]; auto. }
  destruct (disk s !! voice_path (normalize w)); [|exact Hreq].
  destruct (Sound_load (voice_path (normalize w)) s); [|exact Hreq].
  left; split; reflexivity.
Qed.

(** ** [update] *)

Lemma update_body_frame (word path : string) (s : State) :
  let s' := update_body word path s in
  generation_queue s' = generation_queue s
  /\ ready_queue s' = ready_queue s
  /\ generating_words s' = generating_words s
  /\ disk s' = disk s
  /\ volume_bgm s' = volume_bgm s /\ volume_se s' = volume_se s
  /\ volume_voice s' = volume_voice s.
Proof.
  unfold update_body. destruct (Sound_load path s); cbn; [|tauto].
  destruct (decide (pending_play s = Some word)); cbn; tauto.
Qed.

Lemma update_loop_frame (fuel : nat) (s : State) :
  let s' := update_loop fuel s in
  generation_queue s' = generation_queue s
  /\ generating_words s' = generating_words s
  /\ disk s' = disk s
  /\ volume_bgm s' = volume_bgm s /\ volume_se s' = volume_se s
  /\ volume_voice s' = volume_voice s.
Proof.
  revert s. induction fuel as [|n IH]; intros s; cbn; [tauto|].
  unfold update_turn. destruct (ready_queue s) as [|[word path] rest]; [tauto|].
  specialize (IH (update_body word path (set_ready_queue rest s))).
  pose proof (update_body_frame word path (set_ready_queue rest s)) as Hb.
  cbn in IH, Hb. destruct IH as (-> & -> & -> & -> & -> & ->).
  destruct Hb as (-> & _ & -> & -> & -> & -> & ->). tauto.
Qed.

(** The loop of [update] ends: with the length of the ready queue as fuel
    it stops on an empty ready queue. *)
Lemma update_loop_drains (fuel : nat) (s : State) :
  length (ready_queue s) <= fuel -> ready_queue (update_loop fuel s) = [].
Proof.
  revert s. induction fuel as [|n IH]; intros s Hlen; cbn.
  - destruct (ready_queue s); [reflexivity | cbn in Hlen; lia].
  - unfold update_turn. destruct (ready_queue s) as [|[word path] rest] eqn:Hq.
    + exact Hq.
    + apply IH.
      destruct (update_body_frame word path (set_ready_queue rest s))
        as (_ & -> & _). cbn in *. lia.
Qed.

Lemma update_drains (s : State) : ready_queue (update s) = [].
Proof. apply update_loop_drains. lia. Qed.

(** [update] on a ready queue with a first record: the body on that
    record, then [update] on the rest. *)
Lemma update_cons (s : State) (word path : string) (rest : list (string * string)) :
  ready_queue s = (word, path) :: rest ->
  update s = update (update_body word path (set_ready_queue rest s)).
Proof.
  intros Hq. unfold update. rewrite Hq. cbn [length update_loop].
  unfold update_turn. rewrite Hq.
  destruct (update_body_frame word path (set_ready_queue rest s))
    as (_ & -> & _). reflexivity.
Qed.

Lemma update_nil (s : State) : ready_queue s = [] -> update s = s.
Proof. intros Hq. unfold update. rewrite Hq. reflexivity. Qed.

(** ** The claims on single calls *)

(** C9: when the ready queue (the completion channel) is empty, [update]
    returns the state it was given, the same in every field: the voice
    cache, the generation queue, the set of generating words, the pending
    play, the volumes, the disk and the log of plays; the test of its loop
    fails at once. *)
Theorem update_empty_unchanged (s : State) :
  ready_queue s = [] -> update s = s /\ update_turn s = None.
Proof.
  intros Hq. split; [apply update_nil; exact Hq|].
  unfold update_turn. rewrite Hq. reflexivity.
Qed.

Lemma update_empty_unchanged_witness :
  ready_queue sample_cached = []
  /\ update sample_cached = sample_cached
  /\ update_turn sample_cached = None.
Proof.
  split; [reflexivity|].
  apply (update_empty_unchanged sample_cached). reflexivity.
Defined.

(** The same in the system of the two threads: the game loop takes the
    lock, finds the ready queue empty and is back where it was. *)
Lemma update_empty_system (y : System) :
  consumer y = CIdle -> ready_queue (st y) = [] ->
  run [Call_update; Update_turn] y = Some y.
Proof.
  destruct y as [s c w]. cbn. intros -> Hq. cbn.
  unfold update_turn. rewrite Hq. reflexivity.
Qed.

(** C10: for a word that normalizes to the empty string, [play_voice]
    returns before its first lookup and the state is the one it was given:
    nothing is played, cached, queued, marked as generating or set as the
    pending play. *)
Theorem play_voice_blank_unchanged (w : string) (s : State) :
  normalize w = "" ->
  play_voice_lookup w s = Returned s /\ play_voice w s = s.
Proof.
  intros Hw. split; [|apply play_voice_blank, Hw].
  unfold play_voice_lookup. rewrite Hw.
  destruct (decide ("" = "")); [reflexivity | contradiction].
Qed.

Lemma play_voice_blank_unchanged_witness :
  normalize "  	 " = ""
  /\ play_voice_lookup "  	 " sample_cached = Returned sample_cached
  /\ play_voice "  	 " sample_cached = sample_cached.
Proof.
  split; [reflexivity|].
  apply (play_voice_blank_unchanged "  	 " sample_cached). reflexivity.
Defined.

(** The words that normalize to the empty string are the empty one and
    those made of white space only. *)
Lemma play_voice_blank_words (w : string) (s : State) :
  Str.all_space w = true -> play_voice w s = s.
Proof.
  intros Hw. apply play_voice_blank, normalize_empty, Hw.
Qed.

(** C6: "Cat" and " cat " normalize to the same key "cat"; [play_voice]
    on the one is [play_voice] on the other in every state, so both look up
    the same entry of the voice cache and of the set of generating words,
    and both derive the same path on disk. *)
Theorem Cat_cat_same_key :
  normalize "Cat" = "cat"
  /\ normalize " cat " = "cat"
  /\ voice_path (normalize "Cat") = "assets/voice/cat.mp3"
  /\ voice_path (normalize " cat ") = "assets/voice/cat.mp3"
  /\ forall s : State,
       play_voice_lookup "Cat" s = play_voice_lookup " cat " s
       /\ play_voice "Cat" s = play_voice " cat " s.
Proof.
  repeat split; try reflexivity.
Qed.

(** C7: [set_volume_voice] stores the clamped value, which lies between
    0.0 and 1.0 for every argument, as the voice volume, and every sound of
    the voice cache, under the same key and from the same file as before,
    has that value as its volume; no entry is added or dropped. *)
Theorem set_volume_voice_all (vol : spec_float) (s : State) :
  let s' := set_volume_voice vol s in
  Float.in_unit (Float.clamp vol)
  /\ volume_voice s' = Float.clamp vol
  /\ (forall k : string,
        voice_cache s' !! k
        = Sound_set_volume (Float.clamp vol) <$> voice_cache s !! k)
  /\ (forall (k : string) (sound : Sound),
        voice_cache s' !! k = Some sound ->
        snd_volume sound = Float.clamp vol).
Proof.
  cbn. split; [apply clamp_in_unit|]. split; [reflexivity|].
  assert (forall k : string,
             (Sound_set_volume (Float.clamp vol) <$> voice_cache s) !! k
             = Sound_set_volume (Float.clamp vol) <$> voice_cache s !! k) as Hk.
  { intros k. apply lookup_fmap. }
  split; [exact Hk|].
  intros k sound. rewrite Hk.
  destruct (voice_cache s !! k); cbn; [|discriminate].
  intros [= <-]. reflexivity.
Qed.

Lemma set_volume_voice_all_witness :
  voice_cache (set_volume_voice Float.f0_3 sample_cached) !! "cat"
  = Some {| snd_path := "assets/voice/cat.mp3"; snd_volume := Float.f0_3 |}
  /\ snd_volume {| snd_path := "assets/voice/cat.mp3"; snd_volume := Float.f0_3 |}
     = Float.clamp Float.f0_3.
Proof.
  assert (voice_cache (set_volume_voice Float.f0_3 sample_cached) !! "cat"
          = Some {| snd_path := "assets/voice/cat.mp3";
                    snd_volume := Float.f0_3 |}) as H by (vm_compute; reflexivity).
  split; [exact H|].
  exact (proj2 (proj2 (proj2 (set_volume_voice_all Float.f0_3 sample_cached)))
           "cat" _ H).
Defined.

(** The other fields are not touched by [set_volume_voice]. *)
Lemma set_volume_voice_frame (vol : spec_float) (s : State) :
  let s' := set_volume_voice vol s in
  generation_queue s' = generation_queue s
  /\ ready_queue s' = ready_queue s
  /\ generating_words s' = generating_words s
  /\ pending_play s' = pending_play s
  /\ disk s' = disk s /\ played s' = played s
  /\ dom (voice_cache s') = dom (voice_cache s).
Proof.
  cbn. repeat split. apply dom_fmap_L.
Qed.

(** ** The invariant of the two threads *)

(** What the worker shares with the game loop and the disk are not touched
    by [play_voice] before its locked block. *)
Lemma play_voice_lookup_frame (w : string) (s : State) :
  match play_voice_lookup w s with
  | Returned s' =>
      generation_queue s' = generation_queue s
      /\ ready_queue s' = ready_queue s
      /\ generating_words s' = generating_words s
      /\ disk s' = disk s
  | Missed w' s' =>
      w' = normalize w /\ w' <> "" /\ s' = set_pending_play (Some w') s
  end.
Proof.
  unfold play_voice_lookup.
  destruct (decide (normalize w = "")) as [|Hne]; [tauto|].
  destruct (voice_cache s !! normalize w); [cbn; tauto|].
  cbn zeta. unfold request_generation.
  destruct (disk s !! voice_path (normalize w)); [|tauto].
  destruct (Sound_load (voice_path (normalize w)) s); [cbn; tauto | tauto].
Qed.

Lemma consistent_init (d : gmap string file) : consistent (init d).
Proof.
  split; cbn.
  - constructor.
  - reflexivity.
  - apply not_elem_of_nil.
  - discriminate.
  - intros word path H. apply elem_of_nil in H. contradiction.
Qed.

Lemma consistent_step (e : event) (y y' : System) :
  consistent y -> step e y = Some y' -> consistent y'.
Proof.
  intros [Hnd Hset Hne Henq Hpaths] Hstep.
  destruct y as [s c w]. cbn in *. unfold step in Hstep. cbn in Hstep.
  destruct e.
  - (* Call_play_voice *)
    destruct c; try discriminate.
    pose proof (play_voice_lookup_frame word s) as Hf.
    destruct (play_voice_lookup word s) as [s'|w' s'].
    + destruct Hf as (Hq & Hr & Hg & _). injection Hstep as <-.
      split; cbn; rewrite ?Hq, ?Hr, ?Hg; auto.
    + destruct Hf as (-> & Hw & ->). injection Hstep as <-.
      split; cbn; auto. intros ? [= <-]. exact Hw.
  - (* Lock_enqueue *)
    destruct c as [|word|]; try discriminate. injection Hstep as <-.
    unfold play_voice_enqueue.
    destruct (decide (word ∈ generating_words s)) as [Hin|Hnin].
    + split; cbn; auto; try discriminate.
    + assert (word ∉ generation_queue s ++ in_flight w) as Hfresh.
      { intros Hin. apply Hnin. rewrite Hset. apply elem_of_list_to_set, Hin. }
      split; cbn.
      * rewrite <- app_assoc. apply NoDup_app. apply NoDup_app in Hnd as (Hq & Hd & Hw).
        split; [exact Hq|]. split.
        -- intros x Hx [Hx'|Hx']%elem_of_app; [|exact (Hd x Hx Hx')].
           apply list_elem_of_singleton in Hx' as ->. apply Hfresh.
           apply elem_of_app. left. exact Hx.
        -- apply NoDup_app. split; [apply NoDup_singleton|]. split; [|exact Hw].
           intros x Hx Hx'. apply list_elem_of_singleton in Hx as ->.
           apply Hfresh. apply elem_of_app. right. exact Hx'.
      * rewrite Hset. rewrite !list_to_set_app_L. cbn. clear. set_solver.
      * intros [Hin|Hin]%elem_of_app; [exact (Hne Hin)|].
        apply list_elem_of_singleton in Hin. exact (Henq word eq_refl (eq_sym Hin)).
      * discriminate.
      * exact Hpaths.
  - (* Call_set_volume_voice *)
    destruct c; try discriminate. injection Hstep as <-.
    split; cbn; auto.
  - (* Call_update *)
    destruct c; try discriminate. injection Hstep as <-.
    split; cbn; auto; try discriminate.
  - (* Update_turn *)
    destruct c; try discriminate. unfold update_turn in Hstep.
    destruct (ready_queue s) as [|[word path] rest] eqn:Hq.
    + injection Hstep as <-. split; cbn; rewrite ?Hq; auto; try discriminate.
    + injection Hstep as <-.
      destruct (update_body_frame word path (set_ready_queue rest s))
        as (Hgq & Hrq & Hg & _). cbn in Hgq, Hrq, Hg.
      split; cbn; rewrite ?Hgq, ?Hrq, ?Hg; auto; try discriminate.
      intros word' path' Hin. apply Hpaths. right. exact Hin.
  - (* Worker_pop *)
    destruct w; try (destruct c; discriminate).
    destruct (lock_free _) ; [|destruct c; discriminate].
    unfold worker_pop in Hstep. cbn in Hnd, Hset.
    destruct (generation_queue s) as [|word rest] eqn:Hq.
    + assert (y' = {| st := s; consumer := c; worker := WPop |}) as ->
        by (destruct c; congruence).
      split; cbn; rewrite ?Hq; auto.
    + assert (y' = {| st := set_generation_queue rest s; consumer := c;
                      worker := if decide (word = "") then WPop
                                else WGenerate word |}) as ->
        by (destruct c; congruence).
      assert (word <> "") as Hw.
      { intros ->. apply Hne. left. }
      destruct (decide (word = "")); [contradiction|].
      rewrite app_nil_r in Hnd, Hset.
      split; cbn; auto.
      * apply NoDup_app. apply NoDup_cons in Hnd as [Hnin Hrest].
        split; [exact Hrest|]. split; [|apply NoDup_singleton].
        intros x Hx Hx'. apply list_elem_of_singleton in Hx' as ->. exact (Hnin Hx).
      * rewrite Hset. rewrite list_to_set_app_L. cbn. clear. set_solver.
      * intros Hin. apply Hne. right. exact Hin.
  - (* Worker_synthesize *)
    destruct w as [|word|word|word]; try (destruct c; discriminate).
    assert (y' = {| st := synthesize word o s; consumer := c;
                    worker := match o with
                              | Saved _ => WPublish word
                              | Raised _ => WFailed word
                              end |}) as -> by (destruct c; congruence).
    assert (generation_queue (synthesize word o s) = generation_queue s
            /\ generating_words (synthesize word o s) = generating_words s
            /\ ready_queue (synthesize word o s) = ready_queue s) as (Hgq & Hg & Hrq).
    { destruct o as [f|[f|]]; cbn; tauto. }
    split; cbn; rewrite ?Hgq, ?Hg, ?Hrq; auto; destruct o; exact Hnd || exact Hset.
  - (* Worker_publish *)
    destruct w as [|word|word|word]; try (destruct c; discriminate).
    destruct (lock_free _); [|destruct c; discriminate].
    assert (y' = {| st := publish word s; consumer := c; worker := WPop |}) as ->
      by (destruct c; congruence).
    cbn in Hnd, Hset. apply NoDup_app in Hnd as (Hq & Hd & _).
    split; cbn; auto.
    + rewrite app_nil_r. exact Hq.
    + rewrite Hset, app_nil_r, list_to_set_app_L. cbn.
      assert (word ∉ generation_queue s) as Hnin.
      { intros Hin. apply (Hd word Hin). left. }
      clear -Hnin. set_solver.
    + intros word' path' [Hin|Hin]%elem_of_app; [apply Hpaths, Hin|].
      apply list_elem_of_singleton in Hin. injection Hin as -> ->. reflexivity.
  - (* Worker_discard *)
    destruct w as [|word|word|word]; try (destruct c; discriminate).
    destruct (lock_free _); [|destruct c; discriminate].
    assert (y' = {| st := discard_failed word s; consumer := c; worker := WPop |}) as ->
      by (destruct c; congruence).
    cbn in Hnd, Hset. apply NoDup_app in Hnd as (Hq & Hd & _).
    split; cbn; auto.
    + rewrite app_nil_r. exact Hq.
    + rewrite Hset, app_nil_r, list_to_set_app_L. cbn.
      assert (word ∉ generation_queue s) as Hnin.
      { intros Hin. apply (Hd word Hin). left. }
      clear -Hnin. set_solver.
Qed.

Lemma reachable_consistent (y : System) : reachable y -> consistent y.
Proof.
  induction 1 as [d|e y y' _ IH Hstep].
  - apply consistent_init.
  - exact (consistent_step e y y' IH Hstep).
Qed.

Lemma run_reachable (es : list event) (y y' : System) :
  reachable y -> run es y = Some y' -> reachable y'.
Proof.
  revert y. induction es as [|e es IH]; intros y Hy; cbn.
  - intros [= <-]. exact Hy.
  - destruct (step e y) as [y1|] eqn:Hstep; [|discriminate].
    apply IH. exact (reachable_step e y y1 Hy Hstep).
Qed.

(** [step] and [step_rel] are the same steps. *)
Lemma step_step_rel (e : event) (y y' : System) :
  step e y = Some y' <-> step_rel e y y'.
Proof.
  split.
  - destruct y as [s c w]. unfold step. cbn [st consumer worker].
    destruct e.
    + destruct c; try discriminate.
      destruct (play_voice_lookup word s) eqn:Hl; intros [= <-].
      * apply step_play_returned, Hl.
      * apply step_play_missed, Hl.
    + destruct c; try discriminate. intros [= <-]. constructor.
    + destruct c; try discriminate. intros [= <-]. constructor.
    + destruct c; try discriminate. intros [= <-]. constructor.
    + destruct c; try discriminate.
      destruct (update_turn s) eqn:Hu; intros [= <-].
      * apply step_update_turn, Hu.
      * apply step_update_leave, Hu.
    + destruct w; try (destruct c; discriminate).
      assert (lock_free {| st := s; consumer := c; worker := WPop |} = true
              -> c <> CUpdate) as Hc by (destruct c; cbn; congruence).
      destruct (lock_free _); [|destruct c; discriminate].
      specialize (Hc eq_refl).
      destruct (worker_pop s) as [[word|] s'] eqn:Hp.
      * destruct (decide (word = "")) as [->|Hw].
        -- intros Hy. assert (y' = {| st := s'; consumer := c; worker := WPop |})
             as -> by (destruct c; congruence).
           apply (step_pop_sleep (Some "")); auto.
        -- intros Hy. assert (y' = {| st := s'; consumer := c;
                                      worker := WGenerate word |})
             as -> by (destruct c; congruence).
           apply step_pop_word; auto.
      * intros Hy. assert (y' = {| st := s'; consumer := c; worker := WPop |})
          as -> by (destruct c; congruence).
        apply (step_pop_sleep None); auto.
    + destruct w as [|word|word|word]; try (destruct c; discriminate).
      intros Hy.
      assert (y' = {| st := synthesize word o s; consumer := c;
                      worker := match o with
                                | Saved _ => WPublish word
                                | Raised _ => WFailed word
                                end |}) as -> by (destruct c; congruence).
      destruct o; constructor.
    + destruct w as [|word|word|word]; try (destruct c; discriminate).
      assert (lock_free {| st := s; consumer := c; worker := WPublish word |} = true
              -> c <> CUpdate) as Hc by (destruct c; cbn; congruence).
      destruct (lock_free _); [|destruct c; discriminate].
      intros Hy.
      assert (y' = {| st := publish word s; consumer := c; worker := WPop |})
        as -> by (destruct c; congruence).
      constructor. auto.
    + destruct w as [|word|word|word]; try (destruct c; discriminate).
      assert (lock_free {| st := s; consumer := c; worker := WFailed word |} = true
              -> c <> CUpdate) as Hc by (destruct c; cbn; congruence).
      destruct (lock_free _); [|destruct c; discriminate].
      intros Hy.
      assert (y' = {| st := discard_failed word s; consumer := c; worker := WPop |})
        as -> by (destruct c; congruence).
      constructor. auto.
  - intros H. destruct H; unfold step; cbn [st consumer worker].
    + rewrite H. reflexivity.
    + rewrite H. reflexivity.
    + reflexivity.
    + reflexivity.
    + reflexivity.
    + rewrite H. reflexivity.
    + rewrite H. reflexivity.
    + destruct c; try contradiction; cbn; rewrite H0;
        destruct (decide (word = "")); try contradiction; reflexivity.
    + destruct H1 as [-> | ->]; destruct c; try contradiction; cbn; rewrite H0;
        reflexivity.
    + destruct c; reflexivity.
    + destruct c; reflexivity.
    + destruct c; try contradiction; reflexivity.
    + destruct c; try contradiction; reflexivity.
Qed.

(** What one step does to the generation queue and to the set of
    generating words: nothing, or the locked block of [play_voice] appends
    and marks a key that was not marked, or the worker pops the first key,
    or the worker ends a key and unmarks it. *)
Lemma step_shared (e : event) (y y' : System) :
  step e y = Some y' ->
  (generation_queue (st y') = generation_queue (st y)
   /\ generating_words (st y') = generating_words (st y))
  \/ (exists k, e = Lock_enqueue /\ consumer y = CEnqueue k
        /\ (k ∉ generating_words (st y))
        /\ generation_queue (st y') = generation_queue (st y) ++ [k]
        /\ generating_words (st y') = {[k]} ∪ generating_words (st y))
  \/ (exists k, e = Worker_pop
        /\ generation_queue (st y) = k :: generation_queue (st y')
        /\ generating_words (st y') = generating_words (st y))
  \/ (exists k, worker y' = WPop
        /\ generation_queue (st y') = generation_queue (st y)
        /\ generating_words (st y') = generating_words (st y) ∖ {[k]}
        /\ (e = Worker_publish /\ worker y = WPublish k
            \/ e = Worker_discard /\ worker y = WFailed k)).
Proof.
  intros Hstep. apply step_step_rel in Hstep.
  destruct Hstep as
    [word s s' w Hl | word word' s s' w Hl | word s w | vol s w | s w
    | s s' w Hu | s w Hu | word s s' c Hc Hp Hw | o s s' c Hc Hp Ho
    | word f s c | word left s c | word s c Hc | word s c Hc];
    cbn [st consumer worker].
  - left. pose proof (play_voice_lookup_frame word s) as Hf.
    rewrite Hl in Hf. tauto.
  - left. pose proof (play_voice_lookup_frame word s) as Hf.
    rewrite Hl in Hf. destruct Hf as (_ & _ & ->). split; reflexivity.
  - unfold play_voice_enqueue.
    destruct (decide (word ∈ generating_words s)); [left; tauto|].
    right; left. exists word. cbn. tauto.
  - left. split; reflexivity.
  - left. split; reflexivity.
  - left. unfold update_turn in Hu.
    destruct (ready_queue s) as [|[word path] rest]; [discriminate|].
    injection Hu as <-.
    destruct (update_body_frame word path (set_ready_queue rest s))
      as (Hq & _ & Hg & _). split; assumption.
  - left. split; reflexivity.
  - unfold worker_pop in Hp.
    destruct (generation_queue s) as [|k rest] eqn:Hq; [discriminate|].
    injection Hp as -> <-. right; right; left. exists word. cbn. tauto.
  - unfold worker_pop in Hp.
    destruct (generation_queue s) as [|k rest] eqn:Hq.
    + injection Hp as <- <-. left. rewrite Hq. tauto.
    + injection Hp as <- <-. right; right; left. exists k. cbn. tauto.
  - left. split; reflexivity.
  - left. destruct left; split; reflexivity.
  - right; right; right. exists word. cbn. tauto.
  - right; right; right. exists word. cbn. tauto.
Qed.

Lemma app_singleton_longer {A : Type} (l : list A) (x : A) : l <> l ++ [x].
Proof.
  intros H. apply (f_equal length) in H. rewrite length_app in H. cbn in H. lia.
Qed.

(** C3: in every state that the game loop and the worker can reach, in
    whatever order their steps come, a key of the generation queue is
    in the set of generating words, which holds the queued keys and the
    key the worker is at, and no others. A step puts a key into the set
    exactly when it appends that key to the queue (the locked block of
    [play_voice]), and a key leaves the set only by the step in which the
    worker ends that key, after a synthesis that was saved or one that
    raised. *)
Theorem generating_words_queue (y : System) :
  reachable y ->
  (forall k, k ∈ generation_queue (st y) -> k ∈ generating_words (st y))
  /\ (forall k, k ∈ generating_words (st y)
        <-> k ∈ generation_queue (st y) \/ k ∈ in_flight (worker y))
  /\ forall (e : event) (y' : System) (k : string),
       step e y = Some y' ->
       (((k ∉ generating_words (st y)) /\ k ∈ generating_words (st y'))
          <-> generation_queue (st y') = generation_queue (st y) ++ [k])
       /\ (generation_queue (st y') = generation_queue (st y) ++ [k] ->
             e = Lock_enqueue /\ consumer y = CEnqueue k)
       /\ (k ∈ generating_words (st y) -> k ∉ generating_words (st y') ->
             worker y' = WPop
             /\ (e = Worker_publish /\ worker y = WPublish k
                 \/ e = Worker_discard /\ worker y = WFailed k)).
Proof.
  intros Hy. pose proof (reachable_consistent y Hy) as [Hnd Hset Hne Henq Hpaths].
  assert (forall k, k ∈ generating_words (st y)
            <-> k ∈ generation_queue (st y) \/ k ∈ in_flight (worker y)) as Hiff.
  { intros k. rewrite Hset, elem_of_list_to_set, elem_of_app. reflexivity. }
  split; [intros k Hk; apply Hiff; left; exact Hk|].
  split; [exact Hiff|].
  intros e y' k Hstep.
  destruct (step_shared e y y' Hstep)
    as [(Hq & Hg) | [(k' & He & Hc & Hk' & Hq & Hg)
       | [(k' & He & Hq & Hg) | (k' & Hw & Hq & Hg & Hfin)]]].
  - rewrite Hq, Hg. split; [|split].
    + split; [tauto|]. intros H. destruct (app_singleton_longer _ _ H).
    + intros H. destruct (app_singleton_longer _ _ H).
    + tauto.
  - rewrite Hq, Hg. split; [|split].
    + split.
      * intros (Hnin & [Hin|Hin]%elem_of_union); [|contradiction].
        apply elem_of_singleton in Hin as ->. reflexivity.
      * intros [_ <-]%app_inj_tail. split; [exact Hk'|].
        apply elem_of_union. left. apply elem_of_singleton. reflexivity.
    + intros [_ <-]%app_inj_tail. tauto.
    + intros Hin Hnin. destruct Hnin. apply elem_of_union. right. exact Hin.
  - rewrite Hg, Hq. split; [|split].
    + split; [tauto|]. intros H. apply (f_equal length) in H.
      rewrite length_app in H. cbn in H. lia.
    + intros H. apply (f_equal length) in H.
      rewrite length_app in H. cbn in H. lia.
    + tauto.
  - rewrite Hq, Hg. split; [|split].
    + split.
      * intros (Hnin & [Hin _]%elem_of_difference). contradiction.
      * intros H. destruct (app_singleton_longer _ _ H).
    + intros H. destruct (app_singleton_longer _ _ H).
    + intros Hin Hnin. split; [exact Hw|].
      destruct (decide (k = k')) as [->|Hkk]; [exact Hfin|].
      destruct Hnin. apply elem_of_difference. split; [exact Hin|].
      intros Hs. apply elem_of_singleton in Hs. contradiction.
Qed.

Lemma sample_system_reachable : reachable sample_system.
Proof.
  apply (run_reachable sample_events (init ∅)); [apply reachable_init|].
  vm_compute. reflexivity.
Qed.

Lemma generating_words_queue_witness :
  reachable sample_system
  /\ "dog" ∈ generating_words (st sample_system).
Proof.
  split; [exact sample_system_reachable|].
  apply (proj1 (generating_words_queue sample_system sample_system_reachable) "dog").
  vm_compute. left.
Defined.

(** In every reachable state a key is in the queue or with the worker at
    most once, whatever the order of the steps of the two threads. *)
Lemma reachable_queue_nodup (y : System) :
  reachable y -> NoDup (generation_queue (st y) ++ in_flight (worker y)).
Proof. intros Hy. apply (cons_nodup y (reachable_consistent y Hy)). Qed.

(** ** Two requests in a row *)

(** After [play_voice] the key is in the voice cache or marked as
    generating. *)
Lemma play_voice_settled (w : string) (s : State) :
  normalize w <> "" ->
  is_Some (voice_cache (play_voice w s) !! normalize w)
  \/ normalize w ∈ generating_words (play_voice w s).
Proof.
  intros Hne. unfold play_voice, play_voice_lookup.
  destruct (decide (normalize w = "")); [contradiction|].
  destruct (voice_cache s !! normalize w).
  { left. cbn. rewrite lookup_insert_eq. eauto. }
  cbn zeta.
  assert (normalize w ∈ generating_words
            (play_voice_enqueue (normalize w)
               (set_pending_play (Some (normalize w)) s))) as Hreq.
  { unfold play_voice_enqueue. cbn.
    destruct (decide (normalize w ∈ generating_words s)); cbn; [assumption|].
    apply elem_of_union. left. apply elem_of_singleton. reflexivity. }
  destruct (disk s !! voice_path (normalize w)); [|right; exact Hreq].
  destruct (Sound_load (voice_path (normalize w)) s); [|right; exact Hreq].
  left. cbn. rewrite lookup_insert_eq. eauto.
Qed.

(** A request for a key that is cached or marked as generating leaves the
    generation queue as it is. *)
Lemma play_voice_no_enqueue (w : string) (s : State) :
  is_Some (voice_cache s !! normalize w) \/ normalize w ∈ generating_words s ->
  generation_queue (play_voice w s) = generation_queue s.
Proof.
  intros H. destruct (play_voice_queue w s) as [[Hq _]|(Hq & _ & Hnin & Hne)];
    [exact Hq|].
  destruct H as [[sound Hc]|Hin]; [|contradiction].
  rewrite (play_voice_memory w s sound Hne Hc). reflexivity.
Qed.

(** C2: two calls of [play_voice] for the same word, with no step of the
    worker in between, append its key to the generation queue at most once:
    the second call leaves the queue as the first one left it, and the
    first one appended the key once or not at all. When the queue had no
    duplicates and its keys were marked as generating, as in every reachable
    state, it has no duplicates after the second call. *)
Theorem play_voice_twice_once (w : string) (s : State) :
  NoDup (generation_queue s) ->
  (forall k, k ∈ generation_queue s -> k ∈ generating_words s) ->
  let s1 := play_voice w s in
  let s2 := play_voice w s1 in
  generation_queue s2 = generation_queue s1
  /\ (generation_queue s1 = generation_queue s
      \/ generation_queue s1 = generation_queue s ++ [normalize w])
  /\ NoDup (generation_queue s2).
Proof.
  intros Hnd Hsub s1 s2.
  assert (generation_queue s2 = generation_queue s1) as H21.
  { destruct (decide (normalize w = "")) as [He|Hne].
    - unfold s2. rewrite (play_voice_blank w s1 He). reflexivity.
    - apply play_voice_no_enqueue, play_voice_settled, Hne. }
  split; [exact H21|]. rewrite H21. unfold s1.
  destruct (play_voice_queue w s) as [[Hq _]|(Hq & _ & Hnin & _)]; rewrite Hq.
  - split; [left; reflexivity | exact Hnd].
  - split; [right; reflexivity|].
    apply NoDup_app. split; [exact Hnd|]. split; [|apply NoDup_singleton].
    intros x Hx Hx'. apply list_elem_of_singleton in Hx' as ->.
    exact (Hnin (Hsub _ Hx)).
Qed.

Lemma play_voice_twice_once_witness :
  generation_queue (play_voice "Cat" (play_voice "Cat" (init_state ∅)))
  = generation_queue (play_voice "Cat" (init_state ∅))
  /\ NoDup (generation_queue (play_voice "Cat" (play_voice "Cat" (init_state ∅)))).
Proof.
  assert (NoDup (generation_queue (init_state ∅))) as Hnd by constructor.
  assert (forall k, k ∈ generation_queue (init_state ∅)
                    -> k ∈ generating_words (init_state ∅)) as Hsub.
  { intros k Hk. apply elem_of_nil in Hk. contradiction. }
  destruct (play_voice_twice_once "Cat" (init_state ∅) Hnd Hsub) as (H1 & _ & H2).
  split; [exact H1 | exact H2].
Defined.

(** ** The worker *)

Lemma worker_round_word (o : synthesis) (s : State) (word : string)
    (rest : list string) :
  generation_queue s = word :: rest -> word <> "" ->
  worker_round o s = _generate_and_cache word o (set_generation_queue rest s).
Proof.
  intros Hq Hw. unfold worker_round, worker_pop. rewrite Hq.
  destruct (decide (word = "")); [contradiction | reflexivity].
Qed.

Lemma worker_round_idle (o : synthesis) (s : State) :
  generation_queue s = [] -> worker_round o s = s.
Proof.
  intros Hq. unfold worker_round, worker_pop. rewrite Hq. reflexivity.
Qed.

(** ** The body of [update] *)

Lemma update_body_loaded (word path : string) (s : State) :
  disk s !! path = Some Loadable ->
  update_body word path s =
    let sound := {| snd_path := path; snd_volume := Float.one |} in
    let s' := set_voice_cache (<[word := sound]> (voice_cache s)) s in
    if decide (pending_play s = Some word)
    then set_pending_play None (Sound_play sound s')
    else s'.
Proof.
  intros Hd. unfold update_body, Sound_load. rewrite Hd. reflexivity.
Qed.

Lemma update_body_failed (word path : string) (s : State) :
  Sound_load path s = None -> update_body word path s = s.
Proof. intros Hd. unfold update_body. rewrite Hd. reflexivity. Qed.

(** C1: [a] and [b] are requested in this order, with different keys, and
    both miss the voice cache and the disk while nothing else is under way.
    Then the pending play is the key of [b]. When the worker has saved the
    voice of [a] and [update] drains its record, the sound of [a] is in the
    voice cache, nothing has been played and the pending play is still the
    key of [b]; when the worker has then saved the voice of [b] and
    [update] drains that record, the sound of [b] is played and the pending
    play is cleared. *)
Theorem latest_request_wins (a b : string) (s : State) :
  normalize a <> "" -> normalize b <> "" -> normalize a <> normalize b ->
  voice_cache s !! normalize a = None ->
  voice_cache s !! normalize b = None ->
  Sound_load (voice_path (normalize a)) s = None ->
  Sound_load (voice_path (normalize b)) s = None ->
  generation_queue s = [] -> generating_words s = ∅ -> ready_queue s = [] ->
  let sound_of k := {| snd_path := voice_path k; snd_volume := Float.one |} in
  let requested := play_voice b (play_voice a s) in
  let a_drained := update (worker_round (Saved Loadable) requested) in
  let b_drained := update (worker_round (Saved Loadable) a_drained) in
  (pending_play requested = Some (normalize b)
   /\ generation_queue requested = [normalize a; normalize b]
   /\ played requested = played s)
  /\ (voice_cache a_drained !! normalize a = Some (sound_of (normalize a))
      /\ played a_drained = played s
      /\ pending_play a_drained = Some (normalize b))
  /\ (voice_cache b_drained !! normalize b = Some (sound_of (normalize b))
      /\ played b_drained = played s ++ [sound_of (normalize b)]
      /\ pending_play b_drained = None).
Proof.
  set (ka := normalize a). set (kb := normalize b).
  intros Ha Hb Hab Hca Hcb Hda Hdb Hq Hg Hr sound_of requested a_drained b_drained.
  (* the two requests *)
  assert (requested =
            set_generating_words ({[kb]} ∪ ({[ka]} ∪ ∅))
              (set_generation_queue [ka; kb] (set_pending_play (Some kb) s)))
    as Hreq.
  { unfold requested. rewrite (play_voice_miss a s Ha Hca Hda). fold ka.
    unfold play_voice_enqueue at 1. cbn [generating_words set_pending_play].
    rewrite Hg. destruct (decide (ka ∈ (∅ : gset string))) as [Hin|_];
      [apply not_elem_of_empty in Hin; contradiction|].
    cbn [generation_queue set_pending_play]. rewrite Hq. cbn [app].
    rewrite play_voice_miss; fold kb; [|exact Hb|exact Hcb|exact Hdb].
    unfold play_voice_enqueue. cbn.
    destruct (decide (kb ∈ {[ka]} ∪ (∅ : gset string))) as [Hin|_];
      [|reflexivity].
    apply elem_of_union in Hin as [Hin|Hin].
    - apply elem_of_singleton in Hin. congruence.
    - apply not_elem_of_empty in Hin. contradiction. }
  split; [rewrite Hreq; cbn; auto|].
  (* the worker saves a, update drains the record *)
  assert (a_drained =
            set_voice_cache (<[ka := sound_of ka]> (voice_cache s))
              (set_ready_queue []
                 (set_generating_words (({[kb]} ∪ ({[ka]} ∪ ∅)) ∖ {[ka]})
                    (set_disk (<[voice_path ka := Loadable]> (disk s))
                       (set_generation_queue [kb]
                          (set_pending_play (Some kb) s))))))
    as Hadr.
  { unfold a_drained. rewrite Hreq.
    rewrite (worker_round_word _ _ ka [kb]); [|reflexivity|exact Ha].
    rewrite (update_cons _ ka (voice_path ka) []); [|cbn; rewrite Hr; reflexivity].
    rewrite update_body_loaded; [|cbn; apply lookup_insert_eq].
    rewrite update_nil.
    - cbn. destruct (decide (Some kb = Some ka)) as [Heq|_]; [congruence|].
      reflexivity.
    - cbn. destruct (decide (Some kb = Some ka)); reflexivity. }
  split; [rewrite Hadr; cbn; rewrite lookup_insert_eq; auto|].
  (* the worker saves b, update drains the record *)
  unfold b_drained. rewrite Hadr.
  rewrite (worker_round_word _ _ kb []); [|reflexivity|exact Hb].
  rewrite (update_cons _ kb (voice_path kb) []); [|reflexivity].
  rewrite update_body_loaded; [|cbn; apply lookup_insert_eq].
  rewrite update_nil.
  - cbn. destruct (decide (Some kb = Some kb)) as [_|Hneq]; [|congruence].
    cbn. rewrite lookup_insert_eq. auto.
  - cbn. destruct (decide (Some kb = Some kb)); reflexivity.
Qed.

Lemma latest_request_wins_witness :
  let requested := play_voice " dog " (play_voice "Cat" (init_state ∅)) in
  let a_drained := update (worker_round (Saved Loadable) requested) in
  let b_drained := update (worker_round (Saved Loadable) a_drained) in
  pending_play requested = Some "dog"
  /\ played a_drained = []
  /\ played b_drained
     = [{| snd_path := "assets/voice/dog.mp3"; snd_volume := Float.one |}]
  /\ pending_play b_drained = None.
Proof.
  assert (normalize "Cat" <> "") as Ha by (vm_compute; discriminate).
  assert (normalize " dog " <> "") as Hb by (vm_compute; discriminate).
  assert (normalize "Cat" <> normalize " dog ") as Hab by (vm_compute; discriminate).
  assert (voice_cache (init_state ∅) !! normalize "Cat" = None) as Hca
    by (vm_compute; reflexivity).
  assert (voice_cache (init_state ∅) !! normalize " dog " = None) as Hcb
    by (vm_compute; reflexivity).
  assert (Sound_load (voice_path (normalize "Cat")) (init_state ∅) = None) as Hda
    by (vm_compute; reflexivity).
  assert (Sound_load (voice_path (normalize " dog ")) (init_state ∅) = None) as Hdb
    by (vm_compute; reflexivity).
  destruct (latest_request_wins "Cat" " dog " (init_state ∅) Ha Hb Hab
              Hca Hcb Hda Hdb eq_refl eq_refl eq_refl)
    as ((H1 & _ & _) & (_ & H2 & _) & (_ & H3 & H4)).
  cbv zeta. split; [exact H1|]. split; [exact H2|]. split; [exact H3 | exact H4].
Defined.

(** ** A drained record *)








(** ** The two ways out of [_generate_and_cache] *)

(** C5: when the synthesis and the save return, the file is on the disk
    under [voice_path word], the path that the disk check of [play_voice]
    derives from the same key, and then one step of the worker, its locked
    block, appends the one record [(word, voice_path word)] to the ready
    queue and takes the word out of the set of generating words; before
    that step neither has changed. A later [play_voice] for that key, when
    the file can be loaded and the key is not cached, loads and plays the
    sound from that path. *)
Theorem worker_success (word : string) (f : file) (s : State) :
  let path := voice_path word in
  let saved := synthesize word (Saved f) s in
  let s' := _generate_and_cache word (Saved f) s in
  (disk saved = <[path := f]> (disk s)
   /\ ready_queue saved = ready_queue s
   /\ generating_words saved = generating_words s)
  /\ (disk s' = <[path := f]> (disk s)
      /\ ready_queue s' = ready_queue s ++ [(word, path)]
      /\ generating_words s' = generating_words s ∖ {[word]}
      /\ generation_queue s' = generation_queue s
      /\ voice_cache s' = voice_cache s
      /\ pending_play s' = pending_play s
      /\ played s' = played s)
  /\ (forall c : consumer_pc,
        step (Worker_synthesize (Saved f))
          {| st := s; consumer := c; worker := WGenerate word |}
        = Some {| st := saved; consumer := c; worker := WPublish word |}
        /\ (c <> CUpdate ->
            step Worker_publish
              {| st := saved; consumer := c; worker := WPublish word |}
            = Some {| st := s'; consumer := c; worker := WPop |}))
  /\ (forall rest : list string,
        generation_queue s = word :: rest -> word <> "" ->
        worker_round (Saved f) s
        = _generate_and_cache word (Saved f) (set_generation_queue rest s))
  /\ (forall w : string,
        normalize w = word -> word <> "" -> voice_cache s !! word = None ->
        f = Loadable ->
        let sound := {| snd_path := path; snd_volume := volume_voice s |} in
        play_voice w s'
        = Sound_play sound
            (set_voice_cache (<[word := sound]> (voice_cache s)) s')).
Proof.
  intros path saved s'. split; [cbn; auto|]. split; [cbn; auto 10|].
  split; [|split].
  - intros c. split; [apply step_step_rel, step_synthesize_saved|].
    intros Hc. apply step_step_rel, (step_publish word saved c Hc).
  - intros rest Hq Hw. apply worker_round_word; assumption.
  - intros w Hw Hne Hc ->. subst word.
    rewrite play_voice_disk; [reflexivity|exact Hne|exact Hc|].
    cbn. apply lookup_insert_eq.
Qed.

Lemma worker_success_witness :
  played (play_voice " cat " (worker_round (Saved Loadable)
                               (play_voice "Cat" (init_state ∅))))
  = [{| snd_path := "assets/voice/cat.mp3"; snd_volume := Float.f0_8 |}].
Proof.
  pose proof (worker_success "cat" Loadable
                (set_generation_queue [] (play_voice "Cat" (init_state ∅))))
    as (_ & _ & _ & Hround & Hplay).
  assert (normalize " cat " = "cat") as Hn by (vm_compute; reflexivity).
  assert ("cat" <> "") as Hne by discriminate.
  assert (voice_cache (set_generation_queue [] (play_voice "Cat" (init_state ∅)))
            !! "cat" = None) as Hc by (vm_compute; reflexivity).
  specialize (Hplay " cat " Hn Hne Hc eq_refl).
  assert (worker_round (Saved Loadable) (play_voice "Cat" (init_state ∅))
          = _generate_and_cache "cat" (Saved Loadable)
              (set_generation_queue [] (play_voice "Cat" (init_state ∅)))) as Hw
    by (vm_compute; reflexivity).
  rewrite Hw, Hplay. vm_compute. reflexivity.
Defined.

(** A backend that always raises: when the worker has gone through the
    queue, no key is left marked as generating. *)
Lemma worker_rounds_raised (lefts : list (option file)) :
  forall s : State,
    length lefts = length (generation_queue s) ->
    "" ∉ generation_queue s ->
    (forall k, k ∈ generating_words s -> k ∈ generation_queue s) ->
    let s' := worker_rounds (Raised <$> lefts) s in
    generating_words s' = ∅
    /\ generation_queue s' = []
    /\ ready_queue s' = ready_queue s.
Proof.
  induction lefts as [|left lefts IH]; intros s Hlen Hne Hsub; cbn.
  - destruct (generation_queue s) eqn:Hq; [|discriminate].
    split; [|auto]. apply set_eq. intros k. split; [|set_solver].
    intros Hk. apply Hsub in Hk.
    apply elem_of_nil in Hk. contradiction.
  - destruct (generation_queue s) as [|word rest] eqn:Hq; [discriminate|].
    assert (word <> "") as Hw by (intros ->; apply Hne; left).
    rewrite (worker_round_word _ _ word rest Hq Hw).
    assert (generation_queue
              (_generate_and_cache word (Raised left) (set_generation_queue rest s))
            = rest
            /\ generating_words
                 (_generate_and_cache word (Raised left)
                    (set_generation_queue rest s))
               = generating_words s ∖ {[word]}
            /\ ready_queue
                 (_generate_and_cache word (Raised left)
                    (set_generation_queue rest s))
               = ready_queue s) as (Hq' & Hg' & Hr').
    { destruct left; cbn; auto. }
    rewrite <- Hr'. apply IH.
    + rewrite Hq'. cbn in Hlen. lia.
    + rewrite Hq'. intros Hin. apply Hne. right. exact Hin.
    + intros k. rewrite Hg', Hq'. intros [Hk Hkw]%elem_of_difference.
      apply Hsub in Hk.
      apply elem_of_cons in Hk as [->|Hk]; [|exact Hk].
      destruct Hkw. apply elem_of_singleton. reflexivity.
Qed.

(** C4: when the synthesis or the save raises, the worker takes the word
    out of the set of generating words, leaves the ready queue as it is and
    does not put the word back into the generation queue; it is back at the
    pop of its loop. When every attempt raises, the set is empty once the
    worker has gone through the queue. With nothing else under way, a request that misses and
    an attempt that raises leave the set of generating words empty and the
    state ready for the same again, and the next request for the word
    appends it to the generation queue and marks it as generating. *)
Theorem worker_failure (word : string) (left : option file) (s : State) :
  let s' := _generate_and_cache word (Raised left) s in
  (generating_words s' = generating_words s ∖ {[word]}
   /\ ready_queue s' = ready_queue s
   /\ generation_queue s' = generation_queue s
   /\ voice_cache s' = voice_cache s
   /\ pending_play s' = pending_play s
   /\ played s' = played s)
  /\ (forall c : consumer_pc,
        c <> CUpdate ->
        run [Worker_synthesize (Raised left); Worker_discard]
          {| st := s; consumer := c; worker := WGenerate word |}
        = Some {| st := s'; consumer := c; worker := WPop |})
  /\ (forall rest : list string,
        generation_queue s = word :: rest -> word <> "" ->
        let attempted := worker_round (Raised left) s in
        generation_queue attempted = rest
        /\ generating_words attempted = generating_words s ∖ {[word]}
        /\ ready_queue attempted = ready_queue s)
  /\ (forall lefts : list (option file),
        length lefts = length (generation_queue s) ->
        "" ∉ generation_queue s ->
        (forall k, k ∈ generating_words s -> k ∈ generation_queue s) ->
        generating_words (worker_rounds (Raised <$> lefts) s) = ∅)
  /\ (forall w : string,
        normalize w = word -> word <> "" ->
        generation_queue s = [] -> generating_words s = ∅ ->
        voice_cache s !! word = None ->
        Sound_load (voice_path word) s = None ->
        left <> Some Loadable ->
        let attempted := worker_round (Raised left) (play_voice w s) in
        (generating_words attempted = ∅
         /\ generation_queue attempted = []
         /\ ready_queue attempted = ready_queue s
         /\ voice_cache attempted !! word = None
         /\ Sound_load (voice_path word) attempted = None)
        /\ generation_queue (play_voice w attempted) = [word]
        /\ generating_words (play_voice w attempted) = {[word]}).
Proof.
  intros s'. split; [destruct left; cbn; auto 10|]. split; [|split; [|split]].
  - intros c Hc. cbn [run].
    rewrite (proj2 (step_step_rel _ _ _)
               (step_synthesize_raised word left s c)).
    rewrite (proj2 (step_step_rel _ _ _)
               (step_discard word (synthesize word (Raised left) s) c Hc)).
    reflexivity.
  - intros rest Hq Hw attempted. unfold attempted.
    rewrite (worker_round_word _ _ word rest Hq Hw).
    destruct left; cbn; auto.
  - intros lefts Hlen Hne Hsub.
    apply (worker_rounds_raised lefts s Hlen Hne Hsub).
  - intros w Hn Hw Hq Hg Hc Hd Hleft attempted. subst word.
    assert (play_voice w s =
              set_generating_words ({[normalize w]} ∪ ∅)
                (set_generation_queue [normalize w]
                   (set_pending_play (Some (normalize w)) s))) as Hreq.
    { rewrite (play_voice_miss w s Hw Hc Hd). unfold play_voice_enqueue. cbn.
      rewrite Hg, Hq.
      destruct (decide (normalize w ∈ (∅ : gset string))) as [Hin|_];
        [apply not_elem_of_empty in Hin; contradiction | reflexivity]. }
    assert (generating_words attempted = ∅
            /\ generation_queue attempted = []
            /\ ready_queue attempted = ready_queue s
            /\ voice_cache attempted !! normalize w = None
            /\ Sound_load (voice_path (normalize w)) attempted = None) as Hatt.
    { unfold attempted. rewrite Hreq.
      rewrite (worker_round_word _ _ (normalize w) []); [|reflexivity|exact Hw].
      unfold Sound_load in *.
      destruct left as [[]|]; cbn; rewrite ?lookup_insert_eq;
        try contradiction; repeat split; auto;
        clear; set_solver. }
    split; [exact Hatt|]. destruct Hatt as (Hg' & Hq' & _ & Hc' & Hd').
    rewrite (play_voice_miss w attempted Hw Hc' Hd'). unfold play_voice_enqueue.
    cbn. rewrite Hg', Hq'.
    destruct (decide (normalize w ∈ (∅ : gset string))) as [Hin|_];
      [apply not_elem_of_empty in Hin; contradiction|].
    cbn. split; [reflexivity|]. apply union_empty_r_L.
Qed.

Lemma worker_failure_witness :
  let attempted :=
    worker_round (Raised (Some Corrupt)) (play_voice "Cat" (init_state ∅)) in
  generating_words attempted = ∅
  /\ generation_queue (play_voice "Cat" attempted) = ["cat"]
  /\ generating_words (play_voice "Cat" attempted) = {["cat"]}.
Proof.
  assert (normalize "Cat" = "cat") as Hn by (vm_compute; reflexivity).
  assert ("cat" <> "") as Hne by discriminate.
  assert (voice_cache (init_state ∅) !! "cat" = None) as Hc
    by (vm_compute; reflexivity).
  assert (Sound_load (voice_path "cat") (init_state ∅) = None) as Hd
    by (vm_compute; reflexivity).
  assert (Some Corrupt <> Some Loadable) as Hleft by discriminate.
  destruct (worker_failure "cat" (Some Corrupt) (init_state ∅))
    as (_ & _ & _ & _ & H).
  destruct (H "Cat" Hn Hne eq_refl eq_refl Hc Hd Hleft)
    as ((Hg & _) & Hq' & Hg').
  cbv zeta. split; [exact Hg|]. split; [exact Hq' | exact Hg'].
Defined.

(** * Further properties *)

(** ** Keys *)

Lemma lower_char_twice (c : ascii) :
  Str.lower_char (Str.lower_char c) = Str.lower_char c.
Proof.
  destruct c as [[] [] [] [] [] [] [] []]; vm_compute; reflexivity.
Qed.

Lemma lower_twice (w : string) : Str.lower (Str.lower w) = Str.lower w.
Proof.
  induction w as [|c r IH]; [reflexivity|].
  cbn [Str.lower]. rewrite lower_char_twice, IH. reflexivity.
Qed.

Lemma lstrip_lower (w : string) :
  Str.lstrip (Str.lower w) = Str.lower (Str.lstrip w).
Proof.
  induction w as [|c r IH]; [reflexivity|].
  cbn [Str.lower Str.lstrip]. rewrite lower_char_isspace.
  destruct (Str.isspace c); [exact IH | reflexivity].
Qed.

Lemma rstrip_lower (w : string) :
  Str.rstrip (Str.lower w) = Str.lower (Str.rstrip w).
Proof.
  induction w as [|c r IH]; [reflexivity|].
  cbn [Str.lower Str.rstrip]. rewrite IH, lower_char_isspace.
  destruct (Str.rstrip r) as [|a r']; cbn [Str.lower].
  - destruct (Str.isspace c); reflexivity.
  - reflexivity.
Qed.

Lemma strip_lower (w : string) :
  Str.strip (Str.lower w) = Str.lower (Str.strip w).
Proof. unfold Str.strip. rewrite lstrip_lower, rstrip_lower. reflexivity. Qed.

Lemma rstrip_twice (w : string) : Str.rstrip (Str.rstrip w) = Str.rstrip w.
Proof.
  induction w as [|c r IH]; [reflexivity|].
  cbn [Str.rstrip]. destruct (Str.rstrip r) as [|a r'] eqn:Hr.
  - destruct (Str.isspace c) eqn:Hc; [reflexivity|].
    cbn [Str.rstrip]. rewrite Hc. reflexivity.
  - change (Str.rstrip (String c (String a r')) = String c (String a r')).
    cbn [Str.rstrip]. cbn [Str.rstrip] in IH.
    destruct (Str.rstrip r') as [|a' r'']; rewrite IH; reflexivity.
Qed.

Lemma lstrip_first (w : string) :
  Str.lstrip w = ""
  \/ exists c r, Str.lstrip w = String c r /\ Str.isspace c = false.
Proof.
  induction w as [|c r IH]; [left; reflexivity|].
  cbn [Str.lstrip]. destruct (Str.isspace c) eqn:Hc; [exact IH|].
  right. exists c, r. split; [reflexivity | exact Hc].
Qed.

Lemma rstrip_first (c : ascii) (r : string) :
  Str.isspace c = false -> exists r', Str.rstrip (String c r) = String c r'.
Proof.
  intros Hc. cbn [Str.rstrip]. destruct (Str.rstrip r) as [|a r'].
  - rewrite Hc. eauto.
  - eauto.
Qed.

Lemma strip_twice (w : string) : Str.strip (Str.strip w) = Str.strip w.
Proof.
  unfold Str.strip. destruct (lstrip_first w) as [Hw|(c & r & Hw & Hc)].
  - rewrite Hw. reflexivity.
  - rewrite Hw. destruct (rstrip_first c r Hc) as [r' Hr].
    rewrite Hr. cbn [Str.lstrip]. rewrite Hc, <- Hr. apply rstrip_twice.
Qed.

Lemma normalize_fixed (w : string) :
  Str.lower (normalize w) = normalize w
  /\ Str.strip (normalize w) = normalize w
  /\ normalize (normalize w) = normalize w
  /\ forall s : State, play_voice (normalize w) s = play_voice w s.
Proof.
  assert (Str.lower (normalize w) = normalize w) as Hl.
  { unfold normalize. rewrite <- strip_lower, lower_twice. reflexivity. }
  assert (Str.strip (normalize w) = normalize w) as Hs.
  { unfold normalize. apply strip_twice. }
  assert (normalize (normalize w) = normalize w) as Hn.
  { unfold normalize at 1. rewrite Hl. exact Hs. }
  repeat split; auto. intros s. apply play_voice_normalize, Hn.
Qed.

(** X1: the key of a word is already normalized: lowering it or stripping
    it again gives the same key, and [play_voice] on the key of a word is
    [play_voice] on the word. *)
Theorem normalize_twice (w : string) :
  Str.lower (normalize w) = normalize w
  /\ Str.strip (normalize w) = normalize w
  /\ normalize (normalize w) = normalize w
  /\ forall s : State, play_voice (normalize w) s = play_voice w s.
Proof. exact (normalize_fixed w). Qed.

(** ** Paths *)

Lemma append_length (a b : string) :
  String.length (a +:+ b) = String.length a + String.length b.
Proof.
  induction a as [|c a IH]; [reflexivity|].
  change (S (String.length (a +:+ b)) = S (String.length a + String.length b)).
  rewrite IH. reflexivity.
Qed.

Lemma append_cancel_r (a b t : string) : a +:+ t = b +:+ t -> a = b.
Proof.
  revert b. induction a as [|c a IH]; intros [|d b] H.
  - reflexivity.
  - apply (f_equal String.length) in H. rewrite !append_length in H.
    simpl in H. lia.
  - apply (f_equal String.length) in H. rewrite !append_length in H.
    simpl in H. lia.
  - simpl in H. injection H as -> H. f_equal. apply IH, H.
Qed.

Lemma startswith_sep_cons (c : ascii) (r r' : string) :
  Str.startswith_sep (String c r) = Str.startswith_sep (String c r').
Proof. destruct c as [[] [] [] [] [] [] [] []]; reflexivity. Qed.

Lemma voice_path_cases (word : string) :
  (Str.startswith_sep word = true /\ voice_path word = word +:+ ".mp3")
  \/ (Str.startswith_sep word = false
      /\ voice_path word = "assets/voice/" +:+ word +:+ ".mp3").
Proof.
  unfold voice_path, Str.path_join.
  destruct word as [|c word]; [right; split; reflexivity|].
  change (String c word +:+ ".mp3") with (String c (word +:+ ".mp3")).
  rewrite (startswith_sep_cons c (word +:+ ".mp3") word).
  destruct (Str.startswith_sep (String c word)); [left | right];
    split; reflexivity.
Qed.

(** X2: two keys with the same path are the same key: no two words share
    a file of the voice directory. *)
Theorem voice_path_inj (a b : string) : voice_path a = voice_path b -> a = b.
Proof.
  destruct (voice_path_cases a) as [[Ha ->]|[Ha ->]];
    destruct (voice_path_cases b) as [[Hb ->]|[Hb ->]]; intros H.
  - apply (append_cancel_r a b ".mp3"), H.
  - destruct a as [|c a]; [discriminate|]. cbn in H. injection H as -> _.
    discriminate.
  - destruct b as [|c b]; [discriminate|]. cbn in H. injection H as <- _.
    discriminate.
  - cbn in H. injection H as H. apply (append_cancel_r a b ".mp3"), H.
Qed.

Lemma voice_path_inj_witness :
  voice_path "cat" = voice_path (normalize " Cat") /\ "cat" = normalize " Cat".
Proof.
  assert (voice_path "cat" = voice_path (normalize " Cat")) as H
    by (vm_compute; reflexivity).
  split; [exact H | exact (voice_path_inj "cat" (normalize " Cat") H)].
Defined.

(** ** What one call of [play_voice] does *)

Lemma play_voice_effect (w : string) (s : State) :
  let s' := play_voice w s in
  let k := normalize w in
  (ready_queue s' = ready_queue s /\ disk s' = disk s
   /\ volume_voice s' = volume_voice s /\ volume_se s' = volume_se s
   /\ volume_bgm s' = volume_bgm s)
  /\ ((exists sound,
         played s' = played s ++ [sound]
         /\ snd_volume sound = volume_voice s
         /\ voice_cache s' = <[k := sound]> (voice_cache s)
         /\ pending_play s' = pending_play s
         /\ generation_queue s' = generation_queue s
         /\ generating_words s' = generating_words s)
      \/ (played s' = played s
          /\ voice_cache s' = voice_cache s
          /\ (k = "" /\ s' = s
              \/ k <> "" /\ pending_play s' = Some k
                 /\ k ∈ generating_words s'))).
Proof.
  cbv zeta. unfold play_voice, play_voice_lookup.
  destruct (decide (normalize w = "")) as [He|Hne].
  { split; [auto 10|]. right. auto. }
  destruct (voice_cache s !! normalize w) as [sound|].
  { cbn. split; [auto 10|]. left. eexists. repeat split. }
  cbn zeta.
  assert (let s' := play_voice_enqueue (normalize w)
                      (set_pending_play (Some (normalize w)) s) in
          (ready_queue s' = ready_queue s /\ disk s' = disk s
           /\ volume_voice s' = volume_voice s /\ volume_se s' = volume_se s
           /\ volume_bgm s' = volume_bgm s)
          /\ played s' = played s /\ voice_cache s' = voice_cache s
          /\ pending_play s' = Some (normalize w)
          /\ normalize w ∈ generating_words s') as Hmiss.
  { unfold play_voice_enqueue. cbn.
    destruct (decide (normalize w ∈ generating_words s)); cbn.
    - auto 10.
    - repeat split. apply elem_of_union. left. apply elem_of_singleton.
      reflexivity. }
  cbv zeta in Hmiss. destruct Hmiss as (Hfr & Hpl & Hca & Hpe & Hge).
  unfold request_generation.
  destruct (disk s !! voice_path (normalize w)) as [f|];
    [|split; [exact Hfr | right; auto 10]].
  unfold Sound_load. destruct (disk s !! voice_path (normalize w)) as [[]|];
    [|split; [exact Hfr | right; auto 10]..].
  cbn. split; [auto 10|]. left. eexists. repeat split.
Qed.

(** X3: [play_voice] never touches the ready queue, the disk or the
    volumes, and it does one of two things. It plays one sound, at the
    current voice volume, and holds that sound in the voice cache under the
    key, and then the pending play, the generation queue and the set of
    generating words are as before. Or it plays nothing and caches nothing,
    and then, unless the key is empty, the key is the pending play and is
    marked as generating. *)
Theorem play_voice_outcomes (w : string) (s : State) :
  let s' := play_voice w s in
  let k := normalize w in
  (ready_queue s' = ready_queue s /\ disk s' = disk s
   /\ volume_voice s' = volume_voice s /\ volume_se s' = volume_se s
   /\ volume_bgm s' = volume_bgm s)
  /\ ((exists sound,
         played s' = played s ++ [sound]
         /\ snd_volume sound = volume_voice s
         /\ voice_cache s' = <[k := sound]> (voice_cache s)
         /\ pending_play s' = pending_play s
         /\ generation_queue s' = generation_queue s
         /\ generating_words s' = generating_words s)
      \/ (played s' = played s
          /\ voice_cache s' = voice_cache s
          /\ (k = "" /\ s' = s
              \/ k <> "" /\ pending_play s' = Some k
                 /\ k ∈ generating_words s'))).
Proof. exact (play_voice_effect w s). Qed.

(** ** What one call of [update] does *)

Lemma update_body_set_ready (q : list (string * string)) (word path : string)
    (s : State) :
  update_body word path (set_ready_queue q s)
  = set_ready_queue q (update_body word path s).
Proof.
  unfold update_body, Sound_load. cbn.
  destruct (disk s !! path) as [[]|]; try reflexivity.
  cbn. destruct (decide (pending_play s = Some word)); reflexivity.
Qed.

Lemma fold_update_body_set_ready (l q : list (string * string)) (s : State) :
  fold_left (fun acc r => update_body r.1 r.2 acc) l (set_ready_queue q s)
  = set_ready_queue q (fold_left (fun acc r => update_body r.1 r.2 acc) l s).
Proof.
  revert s. induction l as [|[w p] l IH]; intros s; cbn [fold_left fst snd].
  - reflexivity.
  - rewrite update_body_set_ready. apply IH.
Qed.

(** X4: [update] takes the records of the ready queue one by one, from
    the first to the last, runs the body of its loop on each of them once,
    and leaves the ready queue empty; a second [update] right after it
    changes nothing. *)
Theorem update_fold (s : State) :
  update s
  = set_ready_queue []
      (fold_left (fun acc r => update_body r.1 r.2 acc) (ready_queue s) s)
  /\ update (update s) = update s.
Proof.
  split; [|apply update_nil, update_drains].
  remember (ready_queue s) as rq eqn:Hrq. symmetry in Hrq.
  revert s Hrq. induction rq as [|[word path] rest IH]; intros s Hrq.
  - rewrite (update_nil s Hrq). destruct s. cbn in *. subst. reflexivity.
  - rewrite (update_cons s word path rest Hrq). cbn [fold_left fst snd].
    rewrite IH.
    + rewrite update_body_set_ready, fold_update_body_set_ready. reflexivity.
    + destruct (update_body_frame word path (set_ready_queue rest s))
        as (_ & -> & _). reflexivity.
Qed.

Lemma update_plays_aux (rq : list (string * string)) :
  forall s : State,
    ready_queue s = rq ->
    ((forall k path, pending_play s = Some k -> (k, path) ∈ rq ->
        disk s !! path <> Some Loadable)
     /\ played (update s) = played s
     /\ pending_play (update s) = pending_play s)
    \/ (exists k path,
          pending_play s = Some k /\ (k, path) ∈ rq
          /\ disk s !! path = Some Loadable
          /\ played (update s)
             = played s ++ [{| snd_path := path; snd_volume := Float.one |}]
          /\ pending_play (update s) = None).
Proof.
  induction rq as [|[word path] rest IH]; intros s Hrq.
  - left. rewrite (update_nil s Hrq). split; [|auto].
    intros k p _ Hin. apply elem_of_nil in Hin. contradiction.
  - rewrite (update_cons s word path rest Hrq).
    set (s1 := update_body word path (set_ready_queue rest s)).
    assert (ready_queue s1 = rest) as Hr1.
    { destruct (update_body_frame word path (set_ready_queue rest s))
        as (_ & H & _). exact H. }
    assert (disk s1 = disk s) as Hd1.
    { destruct (update_body_frame word path (set_ready_queue rest s))
        as (_ & _ & _ & H & _). exact H. }
    specialize (IH s1 Hr1). rewrite Hd1 in IH.
    assert (disk s !! path = Some Loadable \/ disk s !! path <> Some Loadable)
      as [Hload|Hfail].
    { destruct (disk s !! path) as [[]|]; [left; reflexivity | right..];
        discriminate. }
    + assert (s1 = let sound := {| snd_path := path; snd_volume := Float.one |} in
                   let s' := set_voice_cache (<[word := sound]> (voice_cache s))
                               (set_ready_queue rest s) in
                   if decide (pending_play s = Some word)
                   then set_pending_play None (Sound_play sound s')
                   else s') as Hs1.
      { unfold s1. rewrite update_body_loaded; [reflexivity | exact Hload]. }
      cbv zeta in Hs1.
      destruct (decide (pending_play s = Some word)) as [Hp|Hp].
      * right. exists word, path.
        assert (pending_play s1 = None) as Hp1 by (rewrite Hs1; reflexivity).
        assert (played s1 = played s
                  ++ [{| snd_path := path; snd_volume := Float.one |}]) as Hpl1
          by (rewrite Hs1; reflexivity).
        destruct IH as [(_ & Hpl & Hpe)|(k & p & Hk & _)]; [|congruence].
        rewrite Hpl, Hpe, Hp1, Hpl1.
        split; [exact Hp|]. split; [left|]. auto.
      * assert (pending_play s1 = pending_play s) as Hp1
          by (rewrite Hs1; reflexivity).
        assert (played s1 = played s) as Hpl1 by (rewrite Hs1; reflexivity).
        rewrite Hp1, Hpl1 in IH.
        destruct IH as [(Hno & Hpl & Hpe)|(k & p & Hk & Hin & Hd & Hpl & Hpe)].
        -- left. split; [|auto]. intros k p Hk Hin.
           apply elem_of_cons in Hin as [[= -> ->]|Hin]; [contradiction|].
           exact (Hno k p Hk Hin).
        -- right. exists k, p. split; [exact Hk|]. split; [right; exact Hin|].
           auto.
    + assert (s1 = set_ready_queue rest s) as Hs1.
      { unfold s1, update_body, Sound_load. cbn.
        destruct (disk s !! path) as [[]|]; [contradiction|reflexivity..]. }
      assert (pending_play s1 = pending_play s) as Hp1
        by (rewrite Hs1; reflexivity).
      assert (played s1 = played s) as Hpl1 by (rewrite Hs1; reflexivity).
      rewrite Hp1, Hpl1 in IH.
      destruct IH as [(Hno & Hpl & Hpe)|(k & p & Hk & Hin & Hd & Hpl & Hpe)].
      * left. split; [|auto]. intros k p Hk Hin.
        apply elem_of_cons in Hin as [[= -> ->]|Hin]; [exact Hfail|].
        exact (Hno k p Hk Hin).
      * right. exists k, p. split; [exact Hk|]. split; [right; exact Hin|].
        auto.
Qed.

(** X5: one call of [update] plays at most one sound. It plays nothing and
    keeps the pending play when no record of the ready queue has the key of
    the pending play and a file that loads. Otherwise it plays the sound of
    such a record once, at volume 1.0 whatever the voice volume is, and
    clears the pending play. *)
Theorem update_plays_once (s : State) :
  ((forall k path, pending_play s = Some k -> (k, path) ∈ ready_queue s ->
      disk s !! path <> Some Loadable)
   /\ played (update s) = played s
   /\ pending_play (update s) = pending_play s)
  \/ (exists k path,
        pending_play s = Some k /\ (k, path) ∈ ready_queue s
        /\ disk s !! path = Some Loadable
        /\ played (update s)
           = played s ++ [{| snd_path := path; snd_volume := Float.one |}]
        /\ pending_play (update s) = None).
Proof. apply (update_plays_aux (ready_queue s) s). reflexivity. Qed.

Lemma update_cached_aux (k : string) (rq : list (string * string)) :
  forall s : State,
    ready_queue s = rq ->
    (is_Some (voice_cache (update s) !! k)
     <-> is_Some (voice_cache s !! k)
         \/ exists path, (k, path) ∈ rq /\ disk s !! path = Some Loadable).
Proof.
  induction rq as [|[word path] rest IH]; intros s Hrq.
  - rewrite (update_nil s Hrq). split; [auto|].
    intros [H|(p & Hin & _)]; [exact H|]. apply elem_of_nil in Hin. contradiction.
  - rewrite (update_cons s word path rest Hrq).
    set (s1 := update_body word path (set_ready_queue rest s)).
    destruct (update_body_frame word path (set_ready_queue rest s))
      as (_ & Hr1 & _ & Hd1 & _). fold s1 in Hr1, Hd1. cbn in Hr1, Hd1.
    rewrite (IH s1 Hr1), Hd1.
    assert (is_Some (voice_cache s1 !! k)
            <-> is_Some (voice_cache s !! k)
                \/ (k = word /\ disk s !! path = Some Loadable)) as Hc1.
    { unfold s1, update_body, Sound_load. cbn.
      destruct (disk s !! path) as [[]|]; cbn.
      - assert (forall c : State -> State,
                   voice_cache (c (set_voice_cache
                                     (<[word := {| snd_path := path;
                                                   snd_volume := Float.one |}]>
                                        (voice_cache s))
                                     (set_ready_queue rest s)))
                   = <[word := {| snd_path := path; snd_volume := Float.one |}]>
                       (voice_cache s) ->
                   is_Some (voice_cache
                              (c (set_voice_cache
                                    (<[word := {| snd_path := path;
                                                  snd_volume := Float.one |}]>
                                       (voice_cache s))
                                    (set_ready_queue rest s))) !! k)
                   <-> is_Some (voice_cache s !! k)
                       \/ (k = word /\ Some Loadable = Some Loadable)) as Hins.
        { intros c ->. rewrite lookup_insert.
          destruct (decide (word = k)) as [Heq|Hne].
          - split; [auto | eauto].
          - split; [auto|]. intros [H|[Heq _]]; [exact H | congruence]. }
        destruct (decide (pending_play s = Some word)).
        + apply (Hins (fun x => set_pending_play None (Sound_play _ x))).
          reflexivity.
        + apply (Hins (fun x => x)). reflexivity.
      - split; [auto|]. intros [H|[_ H]]; [exact H | discriminate].
      - split; [auto|]. intros [H|[_ H]]; [exact H | discriminate]. }
    rewrite Hc1. split.
    + intros [[H|[-> Hd]]|(p & Hin & Hd)]; [auto| |].
      * right. exists path. split; [left | exact Hd].
      * right. exists p. split; [right; exact Hin | exact Hd].
    + intros [H|(p & Hin & Hd)]; [auto|].
      apply elem_of_cons in Hin as [[= -> ->]|Hin]; [auto|].
      right. exists p. auto.
Qed.

(** X6: [update] only adds to the voice cache. After it the cached keys
    are the ones cached before and the keys of the records whose file
    loads; a record whose file does not load is dropped and caches nothing.
    The generation queue, the set of generating words, the disk and the
    volumes are as before. *)
Theorem update_cached_keys (s : State) (k : string) :
  (is_Some (voice_cache (update s) !! k)
   <-> is_Some (voice_cache s !! k)
       \/ exists path, (k, path) ∈ ready_queue s
                       /\ disk s !! path = Some Loadable)
  /\ generation_queue (update s) = generation_queue s
  /\ generating_words (update s) = generating_words s
  /\ disk (update s) = disk s
  /\ volume_voice (update s) = volume_voice s.
Proof.
  split; [apply (update_cached_aux k (ready_queue s) s); reflexivity|].
  destruct (update_loop_frame (length (ready_queue s)) s)
    as (H1 & H2 & H3 & _ & _ & H4). auto.
Qed.

(** ** The worker over the whole queue *)

Lemma _generate_and_cache_shared (word : string) (o : synthesis) (s : State) :
  let s' := _generate_and_cache word o s in
  generation_queue s' = generation_queue s
  /\ ready_queue s'
     = ready_queue s ++ match o with
                        | Saved _ => [(word, voice_path word)]
                        | Raised _ => []
                        end
  /\ generating_words s' = generating_words s ∖ {[word]}
  /\ voice_cache s' = voice_cache s
  /\ pending_play s' = pending_play s
  /\ played s' = played s
  /\ volume_voice s' = volume_voice s.
Proof.
  destruct o as [f|[f|]]; cbn; rewrite ?app_nil_r; auto 10.
Qed.

Lemma worker_rounds_effect (os : list synthesis) :
  forall s : State,
    "" ∉ generation_queue s ->
    let s' := worker_rounds os s in
    generation_queue s' = drop (length os) (generation_queue s)
    /\ ready_queue s'
       = ready_queue s
         ++ omap (fun ko : string * synthesis =>
                    match ko.2 with
                    | Saved _ => Some (ko.1, voice_path ko.1)
                    | Raised _ => None
                    end) (zip (generation_queue s) os)
    /\ generating_words s'
       = generating_words s ∖ list_to_set (take (length os) (generation_queue s))
    /\ voice_cache s' = voice_cache s
    /\ pending_play s' = pending_play s
    /\ played s' = played s.
Proof.
  induction os as [|o os IH]; intros s Hne; cbn [worker_rounds length].
  - rewrite drop_0.
    destruct (generation_queue s); cbn; rewrite app_nil_r; repeat split; auto;
      clear; set_solver.
  - destruct (generation_queue s) as [|k rest] eqn:Hq.
    + rewrite (worker_round_idle o s Hq).
      pose proof (IH s) as IH'. rewrite Hq in IH'.
      destruct (IH' Hne) as (H1 & H2 & H3 & H4 & H5 & H6).
      rewrite drop_nil in H1. rewrite take_nil in H3.
      cbn in H2. rewrite H1, H2, H3, H4, H5, H6. auto 10.
    + assert (k <> "") as Hk.
      { intros ->. apply Hne. left. }
      rewrite (worker_round_word o s k rest Hq Hk).
      set (s1 := _generate_and_cache k o (set_generation_queue rest s)).
      destruct (_generate_and_cache_shared k o (set_generation_queue rest s))
        as (G1 & G2 & G3 & G4 & G5 & G6 & _). fold s1 in G1, G2, G3, G4, G5, G6.
      cbn in G1, G2, G3, G4, G5, G6.
      assert ("" ∉ generation_queue s1) as Hne1.
      { rewrite G1. intros Hin. apply Hne. right. exact Hin. }
      destruct (IH s1 Hne1) as (H1 & H2 & H3 & H4 & H5 & H6).
      rewrite H1, H2, H3, H4, H5, H6, G1, G2, G3, G4, G5, G6.
      cbn [drop take zip zip_with omap fst snd].
      repeat split; auto.
      * rewrite <- app_assoc. f_equal. destruct o; reflexivity.
      * cbn. clear. set_solver.
Qed.

(** X7: rounds of the worker take the keys of the generation queue from
    the front, one for each round, in the order in which they were queued.
    The ready queue gets the records of the keys whose synthesis was saved,
    in that order and each with the path of its key; every key gone through
    is unmarked, saved or not. The worker caches and plays nothing. *)
Theorem worker_rounds_fifo (os : list synthesis) :
  forall s : State,
    "" ∉ generation_queue s ->
    let s' := worker_rounds os s in
    generation_queue s' = drop (length os) (generation_queue s)
    /\ ready_queue s'
       = ready_queue s
         ++ omap (fun ko : string * synthesis =>
                    match ko.2 with
                    | Saved _ => Some (ko.1, voice_path ko.1)
                    | Raised _ => None
                    end) (zip (generation_queue s) os)
    /\ generating_words s'
       = generating_words s ∖ list_to_set (take (length os) (generation_queue s))
    /\ voice_cache s' = voice_cache s
    /\ pending_play s' = pending_play s
    /\ played s' = played s.
Proof. exact (worker_rounds_effect os). Qed.

Lemma worker_rounds_fifo_witness :
  let s := play_voice "dog" (play_voice "Cat" (init_state ∅)) in
  ready_queue (worker_rounds [Raised None; Saved Loadable] s)
  = [("dog", "assets/voice/dog.mp3")].
Proof.
  assert ("" ∉ generation_queue
                 (play_voice "dog" (play_voice "Cat" (init_state ∅)))) as Hne.
  { vm_compute. intros H. apply elem_of_cons in H as [H|H]; [discriminate|].
    apply elem_of_cons in H as [H|H]; [discriminate|].
    apply elem_of_nil in H. exact H. }
  destruct (worker_rounds_fifo [Raised None; Saved Loadable] _ Hne)
    as (_ & H & _).
  cbv zeta. rewrite H. vm_compute. reflexivity.
Defined.

Lemma zip_all_saved (f : file) (q : list string) :
  omap (fun ko : string * synthesis =>
          match ko.2 with
          | Saved _ => Some (ko.1, voice_path ko.1)
          | Raised _ => None
          end) (zip q (replicate (length q) (Saved f)))
  = (fun k => (k, voice_path k)) <$> q.
Proof.
  induction q as [|k q IH]; [reflexivity|].
  cbn. f_equal. exact IH.
Qed.

Lemma worker_rounds_disk (n : nat) :
  forall s : State,
    "" ∉ generation_queue s ->
    let s' := worker_rounds (replicate n (Saved Loadable)) s in
    (forall p, disk s !! p = Some Loadable -> disk s' !! p = Some Loadable)
    /\ (forall k, k ∈ take n (generation_queue s) ->
          disk s' !! voice_path k = Some Loadable).
Proof.
  induction n as [|n IH]; intros s Hne; cbn [replicate worker_rounds].
  - split; [auto|]. intros k Hk. rewrite take_0 in Hk.
    apply elem_of_nil in Hk. contradiction.
  - destruct (generation_queue s) as [|k rest] eqn:Hq.
    + rewrite (worker_round_idle _ s Hq). pose proof (IH s) as IH'.
      rewrite Hq in IH'. destruct (IH' Hne) as (H1 & _). split; [exact H1|].
      intros k Hk. apply elem_of_nil in Hk. contradiction.
    + assert (k <> "") as Hk by (intros ->; apply Hne; left).
      rewrite (worker_round_word _ s k rest Hq Hk).
      set (s1 := _generate_and_cache k (Saved Loadable)
                   (set_generation_queue rest s)).
      assert (generation_queue s1 = rest) as Hq1 by reflexivity.
      assert (disk s1 = <[voice_path k := Loadable]> (disk s)) as Hd1
        by reflexivity.
      assert ("" ∉ generation_queue s1) as Hne1.
      { rewrite Hq1. intros Hin. apply Hne. right. exact Hin. }
      destruct (IH s1 Hne1) as (H1 & H2). rewrite Hq1 in H2. split.
      * intros p Hp. apply H1. rewrite Hd1, lookup_insert.
        destruct (decide (voice_path k = p)); [reflexivity | exact Hp].
      * intros k' Hk'. cbn [take] in Hk'.
        apply elem_of_cons in Hk' as [->|Hk']; [|apply H2, Hk'].
        apply H1. rewrite Hd1. apply lookup_insert_eq.
Qed.

(** X8: when every synthesis is saved and its file loads, then after the
    worker has gone through the generation queue and [update] has run,
    every key that was queued is in the voice cache; the two queues are
    empty and the queued keys are no longer marked as generating. *)
Theorem queued_words_cached (s : State) :
  "" ∉ generation_queue s ->
  let rounds := replicate (length (generation_queue s)) (Saved Loadable) in
  let s' := update (worker_rounds rounds s) in
  (forall k, k ∈ generation_queue s -> is_Some (voice_cache s' !! k))
  /\ generation_queue s' = []
  /\ ready_queue s' = []
  /\ generating_words s'
     = generating_words s ∖ list_to_set (generation_queue s).
Proof.
  intros Hne rounds s'.
  destruct (worker_rounds_effect rounds s Hne) as (H1 & H2 & H3 & _).
  destruct (worker_rounds_disk (length (generation_queue s)) s Hne) as (_ & Hd).
  fold rounds in Hd. unfold rounds in H1, H2, H3.
  rewrite length_replicate in H1, H3. rewrite zip_all_saved in H2.
  rewrite drop_all in H1. rewrite firstn_all in H3. fold rounds in H1, H2, H3.
  rewrite firstn_all in Hd.
  destruct (update_loop_frame (length (ready_queue (worker_rounds rounds s)))
              (worker_rounds rounds s)) as (G1 & G2 & _).
  fold (update (worker_rounds rounds s)) in G1, G2.
  split; [|split; [|split]].
  - intros k Hk.
    apply (update_cached_aux k (ready_queue (worker_rounds rounds s))
             (worker_rounds rounds s) eq_refl).
    right. exists (voice_path k). split; [|apply Hd, Hk].
    rewrite H2. apply elem_of_app. right.
    apply (list_elem_of_fmap_2 (fun k => (k, voice_path k))). exact Hk.
  - unfold s'. rewrite G1. exact H1.
  - apply update_drains.
  - unfold s'. rewrite G2. exact H3.
Qed.

Lemma queued_words_cached_witness :
  let s := play_voice "dog" (play_voice "Cat" (init_state ∅)) in
  is_Some (voice_cache
             (update (worker_rounds (replicate 2 (Saved Loadable)) s)) !! "dog").
Proof.
  assert ("" ∉ generation_queue
                 (play_voice "dog" (play_voice "Cat" (init_state ∅)))) as Hne.
  { vm_compute. intros H. apply elem_of_cons in H as [H|H]; [discriminate|].
    apply elem_of_cons in H as [H|H]; [discriminate|].
    apply elem_of_nil in H. exact H. }
  destruct (queued_words_cached _ Hne) as (H & _).
  apply (H "dog"). vm_compute. right. left.
Defined.

(** ** Invariants of the keys and of the volumes *)

Lemma normalize_is_key (w : string) : normalize w <> "" -> is_key (normalize w).
Proof.
  intros Hne. split; [exact Hne|].
  destruct (normalize_fixed w) as (_ & _ & H & _). exact H.
Qed.

(** The ways out of [play_voice] before its locked block. *)
Lemma play_voice_lookup_cases (w : string) (s : State) :
  match play_voice_lookup w s with
  | Returned s' =>
      (normalize w = "" /\ s' = s)
      \/ (normalize w <> ""
          /\ exists sound,
              s' = Sound_play sound
                     (set_voice_cache (<[normalize w := sound]> (voice_cache s)) s)
              /\ snd_volume sound = volume_voice s
              /\ (snd_path sound = voice_path (normalize w)
                  \/ exists old, voice_cache s !! normalize w = Some old
                                 /\ snd_path sound = snd_path old))
  | Missed w' s' =>
      w' = normalize w /\ normalize w <> ""
      /\ s' = set_pending_play (Some (normalize w)) s
      /\ voice_cache s !! normalize w = None
  end.
Proof.
  unfold play_voice_lookup.
  destruct (decide (normalize w = "")) as [He|Hne]; [left; auto|].
  destruct (voice_cache s !! normalize w) as [old|] eqn:Hc.
  { right. split; [exact Hne|]. eexists. split; [reflexivity|].
    split; [reflexivity|]. right. exists old. auto. }
  cbn zeta. unfold request_generation, Sound_load.
  destruct (disk s !! voice_path (normalize w)) as [[]|]; [|auto..].
  right. split; [exact Hne|]. eexists. split; [reflexivity|].
  split; [reflexivity|]. left. reflexivity.
Qed.

Lemma well_keyed_init (d : gmap string file) : well_keyed (init d).
Proof.
  split; cbn.
  - intros k sound H. rewrite lookup_empty in H. discriminate.
  - intros k H. apply elem_of_nil in H. contradiction.
  - intros k p H. apply elem_of_nil in H. contradiction.
  - intros k H. apply elem_of_nil in H. contradiction.
  - discriminate.
  - discriminate.
Qed.

Lemma well_keyed_step (e : event) (y y' : System) :
  well_keyed y -> step e y = Some y' -> well_keyed y'.
Proof.
  intros [Hc Hq Hr Hf Hp He] Hstep. apply step_step_rel in Hstep.
  destruct Hstep as
    [word s s' w Hl | word word' s s' w Hl | word s w | vol s w | s w
    | s s' w Hu | s w Hu | word s s' c Hcu Hpop Hw | o s s' c Hcu Hpop Ho
    | word f s c | word left s c | word s c Hcu | word s c Hcu];
    cbn [st consumer worker] in *.
  - (* play_voice returns *)
    pose proof (play_voice_lookup_cases word s) as Hcases. rewrite Hl in Hcases.
    destruct Hcases as [[_ ->]|(Hne & sound & -> & _ & Hpath)].
    { split; cbn [st consumer worker]; auto; discriminate. }
    split; cbn; auto; [|discriminate].
    intros k snd. rewrite lookup_insert.
    destruct (decide (normalize word = k)) as [<-|Hk]; [|apply Hc].
    intros [= <-]. split; [apply normalize_is_key, Hne|].
    destruct Hpath as [Hpath|(old & Hold & Hpath)]; [exact Hpath|].
    rewrite Hpath. apply (Hc _ _ Hold).
  - (* play_voice misses *)
    pose proof (play_voice_lookup_cases word s) as Hcases. rewrite Hl in Hcases.
    destruct Hcases as (-> & Hne & -> & Hnone).
    split; cbn; auto.
    + intros k [= <-]. apply normalize_is_key, Hne.
    + intros k [= <-]. split; [apply normalize_is_key, Hne | exact Hnone].
  - (* the locked block of play_voice *)
    destruct (He word eq_refl) as [Hkey _].
    unfold play_voice_enqueue.
    destruct (decide (word ∈ generating_words s));
      split; cbn; auto; try discriminate.
    intros k [Hk|Hk]%elem_of_app; [apply Hq, Hk|].
    apply list_elem_of_singleton in Hk as ->. exact Hkey.
  - (* set_volume_voice *)
    split; cbn; auto; [|discriminate].
    intros k sound. rewrite lookup_fmap.
    destruct (voice_cache s !! k) as [old|] eqn:Hold; cbn; [|discriminate].
    intros [= <-]. cbn. apply (Hc _ _ Hold).
  - (* update takes the lock *)
    split; cbn; auto; discriminate.
  - (* a turn of update *)
    unfold update_turn in Hu.
    destruct (ready_queue s) as [|[word path] rest] eqn:Hrq; [discriminate|].
    injection Hu as <-.
    destruct (Hr word path) as [Hkey ->]; [left|].
    destruct (update_body_frame word (voice_path word) (set_ready_queue rest s))
      as (Hgq & Hrq' & _). cbn in Hgq, Hrq'.
    split; cbn [st consumer worker]; rewrite ?Hgq, ?Hrq'; auto;
      try discriminate.
    + intros k sound. unfold update_body, Sound_load. cbn.
      destruct (disk s !! voice_path word) as [[]|]; cbn; try apply Hc.
      assert (forall c : gmap string Sound,
                 c = <[word := {| snd_path := voice_path word;
                                  snd_volume := Float.one |}]> (voice_cache s) ->
                 c !! k = Some sound ->
                 is_key k /\ snd_path sound = voice_path k) as Hins.
      { intros c ->. rewrite lookup_insert.
        destruct (decide (word = k)) as [<-|_]; [|apply Hc].
        intros [= <-]. auto. }
      destruct (decide (pending_play s = Some word)); apply Hins; reflexivity.
    + intros k p Hin. apply Hr. right. exact Hin.
    + intros k. unfold update_body, Sound_load. cbn.
      destruct (disk s !! voice_path word) as [[]|]; cbn; try apply Hp.
      destruct (decide (pending_play s = Some word)); cbn;
        [discriminate | apply Hp].
  - (* update leaves *)
    split; cbn; auto; discriminate.
  - (* the worker pops a word *)
    unfold worker_pop in Hpop.
    destruct (generation_queue s) as [|k rest] eqn:Hgq; [discriminate|].
    injection Hpop as -> <-.
    split; cbn; auto.
    + intros k Hk. apply Hq. right. exact Hk.
    + intros k Hk. apply list_elem_of_singleton in Hk as ->. apply Hq. left.
  - (* the worker sleeps *)
    unfold worker_pop in Hpop.
    destruct (generation_queue s) as [|k rest] eqn:Hgq;
      injection Hpop as <- <-; split; cbn; rewrite ?Hgq; auto.
    intros k' Hk. apply Hq. right. exact Hk.
  - (* the synthesis is saved *)
    split; cbn; auto.
  - (* the synthesis raises *)
    destruct left; split; cbn; auto.
  - (* the worker publishes *)
    split; cbn; auto.
    + intros k p [Hin|Hin]%elem_of_app; [apply Hr, Hin|].
      apply list_elem_of_singleton in Hin. injection Hin as -> ->.
      split; [apply Hf; left | reflexivity].
    + intros k Hk. apply elem_of_nil in Hk. contradiction.
  - (* the worker discards *)
    split; cbn; auto.
    intros k Hk. apply elem_of_nil in Hk. contradiction.
Qed.

Lemma well_keyed_reachable (y : System) : reachable y -> well_keyed y.
Proof.
  induction 1 as [d|e y y' _ IH Hstep].
  - apply well_keyed_init.
  - exact (well_keyed_step e y y' IH Hstep).
Qed.

(** X9: in every state that the two threads can reach, every key in the
    voice cache, in the two queues, with the worker or pending for play is
    a word that is not empty and is lowered and stripped, so the synthesis
    is never asked for an empty text; every cached sound and every record
    of the ready queue carries the path of its own key. *)
Theorem reachable_well_keyed (y : System) : reachable y -> well_keyed y.
Proof. exact (well_keyed_reachable y). Qed.

Lemma reachable_well_keyed_witness :
  reachable sample_system
  /\ is_key "dog" /\ worker sample_system = WGenerate "cat" /\ is_key "cat".
Proof.
  pose proof (reachable_well_keyed sample_system sample_system_reachable)
    as [_ Hq _ Hf _ _].
  split; [exact sample_system_reachable|].
  split; [apply Hq; vm_compute; left|].
  split; [reflexivity|]. apply Hf. vm_compute. left.
Defined.

(** What one step does to the voice cache, the log of plays and the disk:
    no cached key is dropped, the log only grows, and the disk changes only
    when the worker saves the file of the key it is at. *)
Lemma step_keeps (e : event) (y y' : System) :
  step e y = Some y' ->
  (forall k, is_Some (voice_cache (st y) !! k) ->
             is_Some (voice_cache (st y') !! k))
  /\ played (st y) `prefix_of` played (st y')
  /\ (disk (st y') = disk (st y)
      \/ exists word f, worker y = WGenerate word
                        /\ disk (st y') = <[voice_path word := f]> (disk (st y))).
Proof.
  intros Hstep. apply step_step_rel in Hstep.
  destruct Hstep as
    [word s s' w Hl | word word' s s' w Hl | word s w | vol s w | s w
    | s s' w Hu | s w Hu | word s s' c Hcu Hpop Hw | o s s' c Hcu Hpop Ho
    | word f s c | word left s c | word s c Hcu | word s c Hcu];
    cbn [st consumer worker] in *.
  - pose proof (play_voice_lookup_cases word s) as Hcases. rewrite Hl in Hcases.
    destruct Hcases as [[_ ->]|(Hne & sound & -> & _)]; [auto|].
    cbn. split; [|split; [apply prefix_app_r; reflexivity | auto]].
    intros k Hk. rewrite lookup_insert.
    destruct (decide (normalize word = k)); [eauto | exact Hk].
  - pose proof (play_voice_lookup_cases word s) as Hcases. rewrite Hl in Hcases.
    destruct Hcases as (_ & _ & -> & _). cbn. auto.
  - unfold play_voice_enqueue.
    destruct (decide (word ∈ generating_words s)); cbn; auto.
  - cbn. split; [|auto]. intros k Hk. rewrite lookup_fmap.
    destruct Hk as [x ->]. cbn. eauto.
  - auto.
  - unfold update_turn in Hu.
    destruct (ready_queue s) as [|[word path] rest]; [discriminate|].
    injection Hu as <-. unfold update_body, Sound_load. cbn.
    destruct (disk s !! path) as [[]|]; cbn; [|auto..].
    destruct (decide (pending_play s = Some word)); cbn.
    + split; [|split; [apply prefix_app_r; reflexivity | auto]].
      intros k Hk. rewrite lookup_insert.
      destruct (decide (word = k)); [eauto | exact Hk].
    + split; [|auto]. intros k Hk. rewrite lookup_insert.
      destruct (decide (word = k)); [eauto | exact Hk].
  - auto.
  - unfold worker_pop in Hpop.
    destruct (generation_queue s); [discriminate|].
    injection Hpop as _ <-. cbn. auto.
  - unfold worker_pop in Hpop.
    destruct (generation_queue s); injection Hpop as _ <-; cbn; auto.
  - cbn. split; [auto|]. split; [reflexivity|]. right. eauto.
  - destruct left as [f|]; cbn; [|auto].
    split; [auto|]. split; [reflexivity|]. right. eauto.
  - cbn. auto.
  - cbn. auto.
Qed.

(** X10: nothing is ever evicted or unplayed: along every run of steps of
    the two threads a cached key stays cached and the log of plays only
    grows; and from a reachable state, a key that is cached is not appended
    to the generation queue again: it is in the queue after the run only if
    it was there before. *)
Theorem cached_stays_cached (es : list event) :
  forall (y y' : System) (k : string),
    reachable y -> run es y = Some y' ->
    is_Some (voice_cache (st y) !! k) ->
    is_Some (voice_cache (st y') !! k)
    /\ played (st y) `prefix_of` played (st y')
    /\ (k ∈ generation_queue (st y') -> k ∈ generation_queue (st y)).
Proof.
  induction es as [|e es IH]; intros y y' k Hy Hrun Hk; cbn in Hrun.
  - injection Hrun as <-. auto.
  - destruct (step e y) as [y1|] eqn:Hstep; [|discriminate].
    destruct (step_keeps e y y1 Hstep) as (Hc1 & Hp1 & _).
    pose proof (reachable_step e y y1 Hy Hstep) as Hy1.
    destruct (IH y1 y' k Hy1 Hrun (Hc1 k Hk)) as (Hc & Hp & Hq).
    split; [exact Hc|]. split; [etrans; eassumption|].
    intros Hin. apply Hq in Hin.
    destruct (step_shared e y y1 Hstep)
      as [(Hq1 & _) | [(k' & _ & Hcon & _ & Hq1 & _)
         | [(k' & _ & Hq1 & _) | (k' & _ & Hq1 & _)]]].
    + rewrite <- Hq1. exact Hin.
    + rewrite Hq1 in Hin. apply elem_of_app in Hin as [Hin|Hin]; [exact Hin|].
      apply list_elem_of_singleton in Hin as ->.
      destruct (wk_enqueue y (well_keyed_reachable y Hy) k' Hcon) as [_ Hnone].
      rewrite Hnone in Hk. destruct Hk as [x Hx]. discriminate.
    + rewrite Hq1. right. exact Hin.
    + rewrite <- Hq1. exact Hin.
Qed.

Lemma one_in_unit : Float.in_unit Float.one.
Proof. split; reflexivity. Qed.

Lemma volumes_in_unit_step (e : event) (y y' : System) :
  volumes_in_unit (st y) -> step e y = Some y' -> volumes_in_unit (st y').
Proof.
  intros [Hv Hc Hp] Hstep. apply step_step_rel in Hstep.
  destruct Hstep as
    [word s s' w Hl | word word' s s' w Hl | word s w | vol s w | s w
    | s s' w Hu | s w Hu | word s s' c Hcu Hpop Hw | o s s' c Hcu Hpop Ho
    | word f s c | word left s c | word s c Hcu | word s c Hcu];
    cbn [st consumer worker] in *.
  - pose proof (play_voice_lookup_cases word s) as Hcases. rewrite Hl in Hcases.
    destruct Hcases as [[_ ->]|(Hne & sound & -> & Hvol & _)];
      [split; assumption|].
    split; cbn; [exact Hv| |].
    + intros k snd. rewrite lookup_insert.
      destruct (decide (normalize word = k)); [|apply Hc].
      intros [= <-]. rewrite Hvol. exact Hv.
    + intros snd [Hin|Hin]%elem_of_app; [apply Hp, Hin|].
      apply list_elem_of_singleton in Hin as ->. rewrite Hvol. exact Hv.
  - pose proof (play_voice_lookup_cases word s) as Hcases. rewrite Hl in Hcases.
    destruct Hcases as (_ & _ & -> & _). split; assumption.
  - unfold play_voice_enqueue.
    destruct (decide (word ∈ generating_words s)); split; assumption.
  - split; cbn; [apply clamp_in_unit| |exact Hp].
    intros k snd. rewrite lookup_fmap.
    destruct (voice_cache s !! k); cbn; [|discriminate].
    intros [= <-]. apply clamp_in_unit.
  - split; assumption.
  - unfold update_turn in Hu.
    destruct (ready_queue s) as [|[word path] rest]; [discriminate|].
    injection Hu as <-. unfold update_body, Sound_load. cbn.
    destruct (disk s !! path) as [[]|]; cbn; [|split; assumption..].
    assert (forall k snd,
               <[word := {| snd_path := path; snd_volume := Float.one |}]>
                 (voice_cache s) !! k = Some snd ->
               Float.in_unit (snd_volume snd)) as Hins.
    { intros k snd. rewrite lookup_insert.
      destruct (decide (word = k)); [|apply Hc].
      intros [= <-]. apply one_in_unit. }
    destruct (decide (pending_play s = Some word)); split; cbn; auto.
    intros snd [Hin|Hin]%elem_of_app; [apply Hp, Hin|].
    apply list_elem_of_singleton in Hin as ->. apply one_in_unit.
  - split; assumption.
  - unfold worker_pop in Hpop.
    destruct (generation_queue s); [discriminate|].
    injection Hpop as _ <-. split; assumption.
  - unfold worker_pop in Hpop.
    destruct (generation_queue s); injection Hpop as _ <-; split; assumption.
  - split; assumption.
  - destruct left; split; assumption.
  - split; assumption.
  - split; assumption.
Qed.

(** X11: in every state that the two threads can reach, the voice volume
    lies between 0.0 and 1.0, and so does the volume of every cached sound
    and of every sound that was played, whatever values were passed to
    [set_volume_voice]. *)
Theorem reachable_volumes_in_unit (y : System) :
  reachable y -> volumes_in_unit (st y).
Proof.
  induction 1 as [d|e y y' _ IH Hstep].
  - split; cbn.
    + split; reflexivity.
    + intros k snd H. rewrite lookup_empty in H. discriminate.
    + intros snd H. apply elem_of_nil in H. contradiction.
  - exact (volumes_in_unit_step e y y' IH Hstep).
Qed.

Lemma sample_drained_reachable : reachable sample_drained.
Proof.
  apply (run_reachable drained_events (init ∅)); [apply reachable_init|].
  vm_compute. reflexivity.
Qed.

Lemma cached_stays_cached_witness :
  reachable sample_drained
  /\ is_Some (voice_cache (st sample_drained) !! "cat")
  /\ ("cat" ∈ generation_queue
               (st (default sample_drained
                      (run [Call_play_voice " CAT"] sample_drained)))
      -> "cat" ∈ generation_queue (st sample_drained)).
Proof.
  assert (is_Some (voice_cache (st sample_drained) !! "cat")) as Hk
    by (vm_compute; eauto).
  assert (run [Call_play_voice " CAT"] sample_drained
          = Some (default sample_drained
                    (run [Call_play_voice " CAT"] sample_drained))) as Hrun
    by (vm_compute; reflexivity).
  destruct (cached_stays_cached [Call_play_voice " CAT"] sample_drained _ "cat"
              sample_drained_reachable Hrun Hk) as (_ & _ & H).
  split; [exact sample_drained_reachable|]. split; [exact Hk | exact H].
Defined.

Lemma reachable_volumes_in_unit_witness :
  reachable sample_drained /\ Float.in_unit (volume_voice (st sample_drained)).
Proof.
  split; [exact sample_drained_reachable|].
  apply (vu_voice _ (reachable_volumes_in_unit sample_drained
                       sample_drained_reachable)).
Defined.

(** ** The volume setters *)

Lemma clamp_twice (vol : spec_float) :
  Float.clamp (Float.clamp vol) = Float.clamp vol.
Proof.
  assert (Float.clamp vol = Float.zero \/ Float.clamp vol = Float.one
          \/ (Float.clamp vol = vol /\ SFltb Float.zero vol = true
              /\ SFltb vol Float.one = true)) as [->|[->|(-> & H0 & H1)]].
  { unfold Float.clamp, Float.py_max, Float.py_min.
    destruct (SFltb vol Float.one) eqn:H1; [|right; left; reflexivity].
    destruct (SFltb Float.zero vol) eqn:H0; [|left; reflexivity].
    right; right. auto. }
  - reflexivity.
  - reflexivity.
  - apply clamp_inside; assumption.
Qed.

Lemma fmap_set_volume_twice (v1 v2 : spec_float) (c : gmap string Sound) :
  Sound_set_volume v2 <$> (Sound_set_volume v1 <$> c) = Sound_set_volume v2 <$> c.
Proof.
  apply map_eq. intros k. rewrite !lookup_fmap.
  destruct (c !! k); reflexivity.
Qed.

(** X12: the last [set_volume_voice] wins: two calls in a row leave the
    state that the second alone leaves, and a value that is already clamped
    is stored as it is, so that setting the stored volume again changes
    nothing. *)
Theorem set_volume_voice_last (v1 v2 : spec_float) (s : State) :
  set_volume_voice v2 (set_volume_voice v1 s) = set_volume_voice v2 s
  /\ set_volume_voice (Float.clamp v1) s = set_volume_voice v1 s
  /\ set_volume_voice (volume_voice (set_volume_voice v1 s))
       (set_volume_voice v1 s)
     = set_volume_voice v1 s.
Proof.
  assert (forall a b, set_volume_voice b (set_volume_voice a s)
                      = set_volume_voice b s) as H2.
  { intros a b. unfold set_volume_voice. cbn.
    rewrite fmap_set_volume_twice. reflexivity. }
  assert (set_volume_voice (Float.clamp v1) s = set_volume_voice v1 s) as Hc.
  { unfold set_volume_voice. cbn. rewrite clamp_twice. reflexivity. }
  split; [apply H2|]. split; [exact Hc|].
  cbn [set_volume_voice volume_voice set_voice_cache set_volume_voice_field].
  change (set_volume_voice (Float.clamp v1) (set_volume_voice v1 s)
          = set_volume_voice v1 s).
  rewrite H2. exact Hc.
Qed.

(** ** Sound effects *)

Lemma worker_round_volumes (o : synthesis) (s : State) :
  volume_bgm (worker_round o s) = volume_bgm s
  /\ volume_se (worker_round o s) = volume_se s
  /\ volume_voice (worker_round o s) = volume_voice s.
Proof.
  unfold worker_round, worker_pop.
  destruct (generation_queue s) as [|k rest]; [auto|].
  destruct (decide (k = "")); [cbn; auto|].
  destruct o as [f|[f|]]; cbn; auto.
Qed.

(** The calls that go to the voice functions leave the volumes of the
    other two channels alone, and the voice volume in range. *)
Lemma voice_call_volumes (g : State -> State) (s : State) :
  (exists w, g = play_voice w) \/ g = update
  \/ (exists v, g = set_volume_voice v) \/ (exists o, g = worker_round o) ->
  volume_bgm (g s) = volume_bgm s
  /\ volume_se (g s) = volume_se s
  /\ (Float.in_unit (volume_voice s) -> Float.in_unit (volume_voice (g s))).
Proof.
  intros [[w ->]|[->|[[v ->]|[o ->]]]].
  - destruct (play_voice_effect w s) as ((_ & _ & Hv & Hs & Hb) & _).
    rewrite Hv, Hs, Hb. auto.
  - destruct (update_loop_frame (length (ready_queue s)) s)
      as (_ & _ & _ & Hb & Hs & Hv).
    unfold update. rewrite Hv, Hs, Hb. auto.
  - cbn. split; [reflexivity|]. split; [reflexivity|].
    intros _. apply clamp_in_unit.
  - destruct (worker_round_volumes o s) as (Hb & Hs & Hv).
    rewrite Hv, Hs, Hb. auto.
Qed.

Lemma do_call_voice (f : option string -> bool -> option string * bool)
    (c : call) (m : Manager) :
  (exists g, do_call f c m = with_base g m
             /\ ((exists w, g = play_voice w) \/ g = update
                 \/ (exists v, g = set_volume_voice v)
                 \/ (exists o, g = worker_round o)))
  \/ (exists v, c = Set_volume_se v) \/ (exists v, c = Set_volume_bgm v)
  \/ (exists x, c = Play_se x) \/ (exists x, c = Play_bgm x) \/ c = Stop_bgm.
Proof.
  destruct c; cbn; eauto 10.
Qed.

Lemma do_call_se_in_step (f : option string -> bool -> option string * bool)
    (c : call) (m : Manager) :
  se_in_step m -> se_in_step (do_call f c m).
Proof.
  intros Hm.
  destruct (do_call_voice f c m)
    as [(g & -> & Hg)|[[v ->]|[[v ->]|[[x ->]|[[x ->]| ->]]]]].
  - destruct (voice_call_volumes g (base m) Hg) as (_ & Hs & _).
    intros k snd Hk. cbn in *. rewrite Hs. apply Hm, Hk.
  - intros k snd. cbn. rewrite lookup_fmap.
    destruct (se_cache m !! k) as [old|] eqn:Hold; cbn; [|discriminate].
    intros [= <-]. cbn. split; [reflexivity | apply (Hm _ _ Hold)].
  - intros k snd Hk. cbn in *. apply Hm, Hk.
  - cbn. unfold play_se.
    destruct (se_cache m !! x) as [old|] eqn:Hold.
    { intros k snd Hk. cbn in *. apply Hm, Hk. }
    destruct (disk (base m) !! Str.path_join sound_dir x); [|exact Hm].
    unfold Sound_load.
    destruct (disk (base m) !! Str.path_join sound_dir x) as [[]|];
      [|exact Hm..].
    intros k snd. cbn. rewrite lookup_insert.
    destruct (decide (x = k)) as [<-|_]; [|apply Hm].
    intros [= <-]. cbn. auto.
  - cbn. unfold play_bgm.
    destruct (disk (base m) !! Str.path_join sound_dir x) as [[]|];
      [| |exact Hm];
      destruct (bool_decide (current_bgm m = Some x) && music_busy (music m));
      try exact Hm.
    destruct (f (music_track (music m)) (music_busy (music m))). exact Hm.
  - exact Hm.
Qed.

Lemma do_calls_se_in_step (f : option string -> bool -> option string * bool)
    (cs : list call) :
  forall m : Manager, se_in_step m -> se_in_step (do_calls f cs m).
Proof.
  induction cs as [|c cs IH]; intros m Hm; [exact Hm|].
  apply IH, do_call_se_in_step, Hm.
Qed.

(** X13: whatever calls have been made since the sound manager was
    created, every cached sound effect has the current effect volume and
    was loaded from its own file of the sound directory. So [play_se], which
    does not set the volume of a cached effect, plays nothing or plays one
    sound from that file at the current effect volume. *)
Theorem sound_effects_in_step
    (f : option string -> bool -> option string * bool)
    (cs : list call) (d : gmap string file) (filename : string) :
  let m := do_calls f cs (init_manager d) in
  let m' := play_se filename m in
  se_in_step m
  /\ (played (base m') = played (base m)
      \/ exists sound,
           played (base m') = played (base m) ++ [sound]
           /\ snd_volume sound = volume_se (base m)
           /\ snd_path sound = Str.path_join sound_dir filename).
Proof.
  intros m m'.
  assert (se_in_step m) as Hm.
  { apply do_calls_se_in_step. intros k snd H. cbn in H.
    rewrite lookup_empty in H. discriminate. }
  split; [exact Hm|]. unfold m', play_se.
  destruct (se_cache m !! filename) as [old|] eqn:Hold.
  { right. exists old. cbn. split; [reflexivity | apply (Hm _ _ Hold)]. }
  destruct (disk (base m) !! Str.path_join sound_dir filename); [|auto].
  unfold Sound_load.
  destruct (disk (base m) !! Str.path_join sound_dir filename) as [[]|];
    [|auto..].
  right. eexists. cbn. split; [reflexivity|]. auto.
Qed.

Lemma play_se_cached (filename : string) (m : Manager) (sound : Sound) :
  se_cache m !! filename = Some sound ->
  play_se filename m = with_base (Sound_play sound) m.
Proof. intros H. unfold play_se. rewrite H. reflexivity. Qed.

Lemma play_se_cases (filename : string) (m : Manager) :
  (exists old, se_cache m !! filename = Some old
               /\ play_se filename m = with_base (Sound_play old) m)
  \/ (se_cache m !! filename = None
      /\ disk (base m) !! Str.path_join sound_dir filename <> Some Loadable
      /\ play_se filename m = m)
  \/ (se_cache m !! filename = None
      /\ disk (base m) !! Str.path_join sound_dir filename = Some Loadable
      /\ play_se filename m
         = let sound := {| snd_path := Str.path_join sound_dir filename;
                           snd_volume := volume_se (base m) |} in
           {| base := Sound_play sound (base m);
              se_cache := <[filename := sound]> (se_cache m);
              current_bgm := current_bgm m; music := music m |}).
Proof.
  unfold play_se, Sound_load.
  destruct (se_cache m !! filename) as [old|]; [left; eauto|].
  destruct (disk (base m) !! Str.path_join sound_dir filename) as [[]|].
  - right; right. auto.
  - right; left. split; [reflexivity|]. split; [discriminate | reflexivity].
  - right; left. split; [reflexivity|]. split; [discriminate | reflexivity].
Qed.

(** X14: [play_se] twice in a row. For an effect that is not cached and
    whose file is missing or does not load, neither call changes anything.
    For one that is not cached and whose file loads, the first call loads
    it, sets it to the effect volume, caches it and plays it, and the second
    call plays the same sound from the cache and leaves the cache as the
    first one left it. For a cached effect both calls play the cached sound,
    whatever the disk holds, and the cache is as before. *)
Theorem play_se_twice (filename : string) (m : Manager) :
  let path := Str.path_join sound_dir filename in
  let m1 := play_se filename m in
  let m2 := play_se filename m1 in
  (se_cache m !! filename = None ->
   disk (base m) !! path <> Some Loadable ->
   m1 = m /\ m2 = m)
  /\ (se_cache m !! filename = None ->
      disk (base m) !! path = Some Loadable ->
      let sound := {| snd_path := path; snd_volume := volume_se (base m) |} in
      se_cache m1 = <[filename := sound]> (se_cache m)
      /\ played (base m1) = played (base m) ++ [sound]
      /\ played (base m2) = played (base m) ++ [sound; sound]
      /\ se_cache m2 = se_cache m1)
  /\ (forall sound,
        se_cache m !! filename = Some sound ->
        se_cache m1 = se_cache m
        /\ played (base m1) = played (base m) ++ [sound]
        /\ played (base m2) = played (base m) ++ [sound; sound]
        /\ se_cache m2 = se_cache m).
Proof.
  cbv zeta.
  destruct (play_se_cases filename m)
    as [(old & Hold & Heq)|[(Hnone & Hd & Heq)|(Hnone & Hd & Heq)]].
  - split; [rewrite Hold; discriminate|]. split; [rewrite Hold; discriminate|].
    intros sound Hs. rewrite Hold in Hs. injection Hs as <-. rewrite Heq.
    assert (se_cache (with_base (Sound_play old) m) !! filename = Some old)
      as H1 by exact Hold.
    rewrite (play_se_cached _ _ _ H1). cbn. rewrite <- app_assoc. auto.
  - split; [intros _ _; rewrite !Heq; auto|].
    split; [intros _ Hl; contradiction|].
    intros sound Hs. rewrite Hnone in Hs. discriminate.
  - split; [intros _ Hl; contradiction|].
    split; [|intros sound Hs; rewrite Hnone in Hs; discriminate].
    intros _ _. rewrite Heq. cbv zeta.
    erewrite (play_se_cached filename); [|cbn; apply lookup_insert_eq].
    cbn. rewrite <- app_assoc. auto.
Qed.

Lemma play_se_twice_witness :
  let m := init_manager sample_disk in
  (play_se "wrong.mp3" m = m /\ play_se "wrong.mp3" (play_se "wrong.mp3" m) = m)
  /\ played (base (play_se "correct.mp3" (play_se "correct.mp3" m)))
     = [{| snd_path := "assets/sounds/correct.mp3"; snd_volume := Float.f0_6 |};
        {| snd_path := "assets/sounds/correct.mp3"; snd_volume := Float.f0_6 |}].
Proof.
  cbv zeta.
  destruct (play_se_twice "wrong.mp3" (init_manager sample_disk)) as (Hw & _).
  destruct (play_se_twice "correct.mp3" (init_manager sample_disk))
    as (_ & Hc & _).
  split.
  - apply Hw; [vm_compute; reflexivity|]. vm_compute. discriminate.
  - assert (se_cache (init_manager sample_disk) !! "correct.mp3" = None) as Hn
      by (vm_compute; reflexivity).
    assert (disk (base (init_manager sample_disk))
              !! Str.path_join sound_dir "correct.mp3" = Some Loadable) as Hd
      by (vm_compute; reflexivity).
    destruct (Hc Hn Hd) as (_ & _ & H & _). exact H.
Defined.

(** ** Music *)

Lemma play_bgm_cases (f : option string -> bool -> option string * bool)
    (filename : string) (m : Manager) :
  let path := Str.path_join sound_dir filename in
  (disk (base m) !! path = None /\ play_bgm f filename m = m)
  \/ (is_Some (disk (base m) !! path)
      /\ current_bgm m = Some filename /\ music_busy (music m) = true
      /\ play_bgm f filename m = m)
  \/ (disk (base m) !! path = Some Loadable
      /\ ~ (current_bgm m = Some filename /\ music_busy (music m) = true)
      /\ play_bgm f filename m
         = {| base := base m; se_cache := se_cache m;
              current_bgm := Some filename;
              music := {| music_track := Some path; music_busy := true;
                          music_volume := volume_bgm (base m) |} |})
  \/ (disk (base m) !! path = Some Corrupt
      /\ ~ (current_bgm m = Some filename /\ music_busy (music m) = true)
      /\ current_bgm (play_bgm f filename m) = current_bgm m
      /\ base (play_bgm f filename m) = base m
      /\ se_cache (play_bgm f filename m) = se_cache m
      /\ music_volume (music (play_bgm f filename m)) = music_volume (music m)).
Proof.
  cbv zeta. unfold play_bgm.
  destruct (disk (base m) !! Str.path_join sound_dir filename) as [file0|];
    [|left; auto].
  destruct (bool_decide (current_bgm m = Some filename)
            && music_busy (music m)) eqn:Hb.
  - apply andb_prop in Hb as [Hc Hb]. apply bool_decide_eq_true in Hc.
    right; left. eauto.
  - assert (~ (current_bgm m = Some filename /\ music_busy (music m) = true))
      as Hnot.
    { intros [Hc Hbusy]. rewrite (bool_decide_eq_true_2 _ Hc), Hbusy in Hb.
      discriminate. }
    destruct file0.
    + right; right; left. auto.
    + right; right; right.
      destruct (f (music_track (music m)) (music_busy (music m))). cbn. auto 10.
Qed.

(** X15: [play_bgm] does not start over a track that is playing: with the
    file missing, or with this track current and the music busy, it changes
    nothing; with a file that loads it leaves this track current and
    playing; and, the file being missing or loadable, a second call right
    after the first changes nothing more. *)
Theorem play_bgm_no_restart
    (f : option string -> bool -> option string * bool)
    (filename : string) (m : Manager) :
  let path := Str.path_join sound_dir filename in
  let m' := play_bgm f filename m in
  (disk (base m) !! path = None -> m' = m)
  /\ (current_bgm m = Some filename -> music_busy (music m) = true -> m' = m)
  /\ (disk (base m) !! path = Some Loadable ->
      current_bgm m' = Some filename /\ music_busy (music m') = true)
  /\ (disk (base m) !! path <> Some Corrupt ->
      play_bgm f filename m' = m').
Proof.
  cbv zeta.
  destruct (play_bgm_cases f filename m)
    as [(Hd & Heq)|[(Hd & Hc & Hb & Heq)|[(Hd & Hnot & Heq)|(Hd & Hnot & _)]]].
  - rewrite !Heq. rewrite Hd. repeat split; auto; discriminate.
  - rewrite !Heq. repeat split; auto.
  - rewrite Heq. split; [rewrite Hd; discriminate|].
    split; [intros Hc Hb; destruct Hnot; auto|]. split; [cbn; auto|].
    intros _.
    destruct (play_bgm_cases f filename
                {| base := base m; se_cache := se_cache m;
                   current_bgm := Some filename;
                   music := {| music_track :=
                                 Some (Str.path_join sound_dir filename);
                               music_busy := true;
                               music_volume := volume_bgm (base m) |} |})
      as [(_ & G)|[(_ & _ & _ & G)|[(_ & Gnot & _)|(_ & Gnot & _)]]];
      try exact G; destruct Gnot; cbn; auto.
  - split; [rewrite Hd; discriminate|].
    split; [intros Hc Hb; destruct Hnot; auto|].
    split; [rewrite Hd; discriminate|]. intros H. contradiction.
Qed.

Lemma play_bgm_no_restart_witness :
  let m := init_manager sample_disk in
  current_bgm (play_bgm unload "title.mp3" m) = Some "title.mp3"
  /\ play_bgm unload "title.mp3" (play_bgm unload "title.mp3" m)
     = play_bgm unload "title.mp3" m.
Proof.
  assert (disk (base (init_manager sample_disk))
            !! Str.path_join sound_dir "title.mp3" = Some Loadable) as Hd
    by (vm_compute; reflexivity).
  destruct (play_bgm_no_restart unload "title.mp3" (init_manager sample_disk))
    as (_ & _ & H1 & H2).
  cbv zeta. split; [apply (H1 Hd)|]. apply H2. rewrite Hd. discriminate.
Defined.

(** X16: after [stop_bgm], [play_bgm] starts a track whose file loads,
    also the one that was current: the music is that file, playing, at the
    BGM volume; and [stop_bgm] forgets neither the current track nor the
    volume. *)
Theorem play_bgm_after_stop
    (f : option string -> bool -> option string * bool)
    (filename : string) (m : Manager) :
  disk (base m) !! Str.path_join sound_dir filename = Some Loadable ->
  let stopped := stop_bgm m in
  let m' := play_bgm f filename stopped in
  (current_bgm stopped = current_bgm m
   /\ music_busy (music stopped) = false
   /\ music_volume (music stopped) = music_volume (music m))
  /\ music m' = {| music_track := Some (Str.path_join sound_dir filename);
                   music_busy := true;
                   music_volume := volume_bgm (base m) |}
  /\ current_bgm m' = Some filename
  /\ base m' = base m /\ se_cache m' = se_cache m.
Proof.
  intros Hd. cbv zeta. split; [cbn; auto|].
  unfold play_bgm, stop_bgm. cbn [base music music_busy current_bgm se_cache].
  rewrite Hd, andb_false_r. cbn [base music music_busy current_bgm se_cache].
  auto.
Qed.

Lemma play_bgm_after_stop_witness :
  let m := play_bgm unload "title.mp3" (init_manager sample_disk) in
  music_busy (music (play_bgm unload "title.mp3" (stop_bgm m))) = true.
Proof.
  assert (disk (base (play_bgm unload "title.mp3" (init_manager sample_disk)))
            !! Str.path_join sound_dir "title.mp3" = Some Loadable) as Hd
    by (vm_compute; reflexivity).
  destruct (play_bgm_after_stop unload "title.mp3" _ Hd) as (_ & H & _).
  cbv zeta. rewrite H. reflexivity.
Defined.

(** ** The volumes of the three channels *)

Lemma do_call_settled (f : option string -> bool -> option string * bool)
    (c : call) (m : Manager) :
  volumes_settled m -> volumes_settled (do_call f c m).
Proof.
  intros (Hm & Hb & Hs & Hv).
  destruct (do_call_voice f c m)
    as [(g & -> & Hg)|[[v ->]|[[v ->]|[[x ->]|[[x ->]| ->]]]]].
  - destruct (voice_call_volumes g (base m) Hg) as (Gb & Gs & Gv).
    unfold volumes_settled. cbn. rewrite Gb, Gs. auto.
  - unfold volumes_settled. cbn. split; [exact Hm|]. split; [exact Hb|].
    split; [apply clamp_in_unit | exact Hv].
  - unfold volumes_settled. cbn. split; [reflexivity|].
    split; [apply clamp_in_unit | auto].
  - cbn. destruct (play_se_cases x m)
      as [(old & _ & ->)|[(_ & _ & ->)|(_ & _ & ->)]];
      unfold volumes_settled; cbn; auto.
  - cbn. unfold play_bgm.
    destruct (disk (base m) !! Str.path_join sound_dir x) as [[]|];
      [| |unfold volumes_settled; auto];
      destruct (bool_decide (current_bgm m = Some x) && music_busy (music m));
      try (unfold volumes_settled; cbn; auto; fail).
    destruct (f (music_track (music m)) (music_busy (music m))).
    unfold volumes_settled. cbn. auto.
  - unfold volumes_settled. cbn. auto.
Qed.

Lemma apply_saved_volumes_settled (g : Game) :
  volumes_settled (sound_manager (apply_saved_volumes g)).
Proof.
  unfold apply_saved_volumes, Save.get_volume, volumes_settled. cbn.
  split; [reflexivity|]. repeat split; apply clamp_in_unit.
Qed.

(** X17: once the game has read the saved volumes, then whatever calls
    follow and whatever the save file held, the music is at the BGM volume
    and the volumes of the three channels lie between 0.0 and 1.0. *)
Theorem game_volumes_settled
    (f : option string -> bool -> option string * bool)
    (saved : option (option (gmap string spec_float)))
    (d : gmap string file) (cs : list call) :
  volumes_settled (do_calls f cs (sound_manager (_init_game_state saved d))).
Proof.
  unfold _init_game_state.
  generalize (apply_saved_volumes_settled
                {| save_manager := Save.init saved;
                   sound_manager := init_manager d |}).
  generalize (sound_manager
                (apply_saved_volumes
                   {| save_manager := Save.init saved;
                      sound_manager := init_manager d |})).
  induction cs as [|c cs IH]; intros m Hm; [exact Hm|].
  apply IH, do_call_settled, Hm.
Qed.

(** ** The saved volumes *)

Lemma set_volume_then_get (channel : string) (value : spec_float)
    (sm : Save.SaveManager) :
  let sm' := Save.set_volume channel value sm in
  Save.get_volume channel sm' = (Float.clamp value, sm')
  /\ Float.in_unit (Float.clamp value)
  /\ (forall other, other <> channel ->
        (Save.get_volume other sm').1 = (Save.get_volume other sm).1)
  /\ Save.file_volume sm' = Some (Save.data_volume sm').
Proof.
  cbv zeta. unfold Save.set_volume, Save.get_volume, Save.save_data,
    Save.ensure_volume. cbn.
  split; [rewrite lookup_insert_eq; reflexivity|].
  split; [apply clamp_in_unit|]. split; [|reflexivity].
  intros other Hne. rewrite lookup_insert_ne; auto.
Qed.

(** X18: [set_volume] then [get_volume] on the same channel gives the
    clamped value, which lies between 0.0 and 1.0, and the call of
    [get_volume] changes nothing; the other channels read as they would have
    read before; and the file holds what the data holds. *)
Theorem save_set_get (channel : string) (value : spec_float)
    (sm : Save.SaveManager) :
  let sm' := Save.set_volume channel value sm in
  Save.get_volume channel sm' = (Float.clamp value, sm')
  /\ Float.in_unit (Float.clamp value)
  /\ (forall other, other <> channel ->
        (Save.get_volume other sm').1 = (Save.get_volume other sm).1)
  /\ Save.file_volume sm' = Some (Save.data_volume sm').
Proof. exact (set_volume_then_get channel value sm). Qed.

(** X19: after [_apply_volume] the saved volume of the channel is the
    clamped value, and for each of the three channels the sound manager
    holds the same value as the volume of that channel, so that what is
    saved is what is heard; the music follows the BGM channel and the cached
    sounds follow theirs. For any other channel name the sound manager is
    not touched and the value is saved all the same. *)
Theorem apply_volume_agrees (ch : string) (val : spec_float) (g : Game) :
  let g' := _apply_volume ch val g in
  let m' := sound_manager g' in
  (Save.get_volume ch (save_manager g')).1 = Float.clamp val
  /\ (ch = "bgm" ->
      volume_bgm (base m') = Float.clamp val
      /\ music_volume (music m') = Float.clamp val)
  /\ (ch = "se" ->
      volume_se (base m') = Float.clamp val
      /\ forall k sound, se_cache m' !! k = Some sound ->
                         snd_volume sound = Float.clamp val)
  /\ (ch = "voice" ->
      volume_voice (base m') = Float.clamp val
      /\ forall k sound, voice_cache (base m') !! k = Some sound ->
                         snd_volume sound = Float.clamp val)
  /\ (ch <> "bgm" -> ch <> "se" -> ch <> "voice" -> m' = sound_manager g).
Proof.
  cbv zeta. split.
  { destruct (set_volume_then_get ch val (save_manager g)) as (H & _).
    cbv zeta in H. unfold _apply_volume. cbn [save_manager].
    rewrite H. reflexivity. }
  unfold _apply_volume. cbn [sound_manager].
  split; [|split; [|split]].
  - intros ->. destruct (decide ("bgm" = "bgm")); [|contradiction].
    cbn. auto.
  - intros ->. destruct (decide ("se" = "bgm")); [discriminate|].
    destruct (decide ("se" = "se")); [|contradiction].
    split; [reflexivity|].
    intros k sound. cbn [set_volume_se se_cache]. rewrite lookup_fmap.
    destruct (se_cache (sound_manager g) !! k); cbn; [|discriminate].
    intros [= <-]. reflexivity.
  - intros ->. destruct (decide ("voice" = "bgm")); [discriminate|].
    destruct (decide ("voice" = "se")); [discriminate|].
    destruct (decide ("voice" = "voice")); [|contradiction].
    split; [reflexivity|].
    intros k sound. cbn. rewrite lookup_fmap.
    destruct (voice_cache (base (sound_manager g)) !! k); cbn; [|discriminate].
    intros [= <-]. reflexivity.
  - intros H1 H2 H3.
    destruct (decide (ch = "bgm")); [contradiction|].
    destruct (decide (ch = "se")); [contradiction|].
    destruct (decide (ch = "voice")); [contradiction|]. reflexivity.
Qed.

Lemma apply_volume_agrees_witness :
  let g := _apply_volume "voice" (S754_finite false 3 0)
             (_init_game_state None sample_disk) in
  volume_voice (base (sound_manager g)) = Float.one
  /\ (Save.get_volume "voice" (save_manager g)).1 = Float.one.
Proof.
  destruct (apply_volume_agrees "voice" (S754_finite false 3 0)
              (_init_game_state None sample_disk)) as (Hs & _ & _ & Hv & _).
  destruct (Hv eq_refl) as [Hv' _].
  cbv zeta. split; [exact Hv' | exact Hs].
Defined.

(** X20: when the game starts, the three volumes of the sound manager are
    the clamped values that [get_volume] reads, channel by channel, and the
    music is at the BGM volume. Without a save file, or with one that has no
    volumes, they are 0.3, 0.6 and 0.8; a channel that is missing among the
    saved volumes gets 0.5. *)
Theorem init_game_volumes
    (saved : option (option (gmap string spec_float)))
    (d : gmap string file) :
  let g := _init_game_state saved d in
  let s := base (sound_manager g) in
  let read ch := (Save.get_volume ch (Save.init saved)).1 in
  (volume_bgm s = Float.clamp (read "bgm")
   /\ volume_se s = Float.clamp (read "se")
   /\ volume_voice s = Float.clamp (read "voice")
   /\ music_volume (music (sound_manager g)) = volume_bgm s)
  /\ (saved = None \/ saved = Some None ->
      volume_bgm s = Float.f0_3 /\ volume_se s = Float.f0_6
      /\ volume_voice s = Float.f0_8)
  /\ (forall v ch, saved = Some (Some v) -> v !! ch = None ->
        read ch = Save.half).
Proof.
  cbv zeta. split; [|split].
  - unfold _init_game_state, apply_saved_volumes, Save.get_volume. cbn. auto.
  - intros [-> | ->]; vm_compute; auto.
  - intros v ch -> Hch. unfold Save.get_volume. cbn. rewrite Hch. reflexivity.
Qed.

Lemma init_game_volumes_witness :
  volume_voice (base (sound_manager (_init_game_state (Some None) sample_disk)))
  = Float.f0_8.
Proof.
  destruct (init_game_volumes (Some None) sample_disk) as (_ & H & _).
  destruct (H (or_intror eq_refl)) as (_ & _ & Hv). exact Hv.
Defined.

(** ** A cache file that does not load *)

(** X21: a file of the voice directory that exists and does not load does
    not stop [play_voice]: nothing is played, and the key is queued and is
    the pending play, as for a missing file. When the worker has then saved
    a file that loads, it has replaced the broken one, and [update] caches
    the sound, plays it once and clears the pending play. *)
Theorem corrupt_file_replaced (w : string) (s : State) :
  let k := normalize w in
  let sound := {| snd_path := voice_path k; snd_volume := Float.one |} in
  k <> "" -> voice_cache s !! k = None ->
  disk s !! voice_path k = Some Corrupt ->
  generation_queue s = [] -> k ∉ generating_words s -> ready_queue s = [] ->
  let s1 := play_voice w s in
  let s2 := update (worker_round (Saved Loadable) s1) in
  (played s1 = played s /\ voice_cache s1 = voice_cache s
   /\ generation_queue s1 = [k] /\ pending_play s1 = Some k
   /\ k ∈ generating_words s1)
  /\ (disk s2 !! voice_path k = Some Loadable
      /\ voice_cache s2 !! k = Some sound
      /\ played s2 = played s ++ [sound]
      /\ pending_play s2 = None
      /\ generation_queue s2 = [] /\ ready_queue s2 = []
      /\ (k ∉ generating_words s2)).
Proof.
  intros k sound Hk Hc Hd Hq Hg Hr s1 s2.
  assert (Sound_load (voice_path k) s = None) as Hload.
  { unfold Sound_load. rewrite Hd. reflexivity. }
  assert (s1 = set_generating_words ({[k]} ∪ generating_words s)
                 (set_generation_queue [k] (set_pending_play (Some k) s)))
    as Hs1.
  { unfold s1. rewrite (play_voice_miss w s Hk Hc Hload). fold k.
    unfold play_voice_enqueue. cbn.
    destruct (decide (k ∈ generating_words s)); [contradiction|].
    rewrite Hq. reflexivity. }
  split.
  { rewrite Hs1. cbn. repeat split; auto.
    apply elem_of_union. left. apply elem_of_singleton. reflexivity. }
  unfold s2. rewrite Hs1.
  rewrite (worker_round_word _ _ k []); [|reflexivity|exact Hk].
  rewrite (update_cons _ k (voice_path k) []); [|cbn; rewrite Hr; reflexivity].
  rewrite update_body_loaded; [|cbn; apply lookup_insert_eq].
  rewrite update_nil.
  - cbn. destruct (decide (Some k = Some k)) as [_|Hn]; [|congruence].
    cbn. rewrite !lookup_insert_eq. repeat split; auto.
    clear. set_solver.
  - cbn. destruct (decide (Some k = Some k)); reflexivity.
Qed.

Lemma corrupt_file_replaced_witness :
  let s := set_disk (<["assets/voice/cat.mp3" := Corrupt]> ∅) (init_state ∅) in
  played (update (worker_round (Saved Loadable) (play_voice "Cat" s)))
  = [{| snd_path := "assets/voice/cat.mp3"; snd_volume := Float.one |}].
Proof.
  assert (normalize "Cat" <> "") as Hk by (vm_compute; discriminate).
  pose (s := set_disk (<["assets/voice/cat.mp3" := Corrupt]> ∅) (init_state ∅)).
  assert (voice_cache s !! normalize "Cat" = None) as Hc
    by (vm_compute; reflexivity).
  assert (disk s !! voice_path (normalize "Cat") = Some Corrupt) as Hd
    by (vm_compute; reflexivity).
  assert (normalize "Cat" ∉ generating_words s) as Hg.
  { cbn. apply not_elem_of_empty. }
  destruct (corrupt_file_replaced "Cat" s Hk Hc Hd eq_refl Hg eq_refl)
    as (_ & _ & _ & H & _).
  exact H.
Defined.
